(** * The snake movement engine of [src/index.tsx]

    A shallow embedding of the grid geometry, the turn queue and the two
    host-driven loops ([draw], [gameLoop]) together with the key handler,
    followed by the properties of the engine.

    Numbers.  Every number the program stores in a cell is an integer:
    [canvas.clientWidth] and [canvas.clientHeight] are integers, and the
    program only applies [Math.floor], [Math.round], [+] and [*] to them.
    They are modelled as [Z].

    Object identity.  An instruction is a JavaScript array; the set
    [appliedInstructions] compares instructions by identity.  Each
    instruction therefore carries the allocation index [iref] of its array.

    Faults.  Destructuring [undefined] raises a [TypeError]; functions that
    can raise return an [option] or a [Completion]. *)

From Stdlib Require Import ZArith Lia Ascii String DecimalString DecimalZ.
From stdpp Require Import base list gmap.

Local Open Scope Z_scope.

(** ** Directions and cells *)

Inductive Direction := Up | Right | Down | Left.

Definition Coord : Type := Z * Z.
Definition ID : Type := string.

Definition Transforms (d : Direction) : Z * Z :=
  match d with
  | Up => (0, 1)
  | Right => (1, 0)
  | Down => (0, -1)
  | Left => (-1, 0)
  end.

(** [Instruction = [Direction, Coord]].  At run time the second component
    can be [undefined] (the key handler stores [toCoord(undefined)]), hence
    the [option]. *)
Record Instruction := MkInstruction {
  iref : nat;
  idir : Direction;
  icoord : option Coord
}.

(** ** Cell keys: [toId] and [toCoord] *)

Definition DELIMITER : ascii := ","%char.

(** [String(n)] for an integer [n]. *)
Definition numToString (z : Z) : string := NilEmpty.string_of_int (Z.to_int z).

(** [Number(s)] on decimal integer literals (and on the empty string, which
    JavaScript also reads as 0).  On any other string JavaScript yields NaN,
    which has no counterpart in [Z]; the model answers [None] there.  Keys in
    the store are only ever built by [toId]. *)
Definition Number (s : string) : option Z :=
  option_map Z.of_int (NilEmpty.int_of_string s).

(** [s.split(DELIMITER)] *)
Fixpoint split (c : ascii) (s : string) : list string :=
  match s with
  | EmptyString => [EmptyString]
  | String a s' =>
      if Ascii.eqb a c then EmptyString :: split c s'
      else match split c s' with
           | [] => [String a EmptyString]
           | h :: t => String a h :: t
           end
  end.

Definition toId (coord : Coord) : ID :=
  (numToString (fst coord) ++ String DELIMITER (numToString (snd coord)))%string.

(** [toCoord(id?)]: [undefined] is passed through by the optional chain. *)
Definition toCoord (id : option ID) : option Coord :=
  match id with
  | None => None
  | Some s =>
      match List.map Number (split DELIMITER s) with
      | Some x :: Some y :: _ => Some (x, y)
      | _ => None
      end
  end.

(** ** Geometry, for a canvas of [width] by [height] pixels *)

Section Geometry.
Variables width height : Z.

Definition smaller : Z := Z.min width height.
(** [Math.floor(smaller / 10)] *)
Definition size : Z := smaller / 10.
Definition rect_size : Z := size.
Definition rect_spacing : Z := 1.
Definition rectSize : Z := rect_size + rect_spacing.

(** [[Math.round(width / 2), Math.round(height / 2)]]; [Math.round] rounds
    halves up. *)
Definition head : Coord := ((width + 1) / 2, (height + 1) / 2).

Definition constrainToCanvas (c : Coord) : Coord :=
  let '(x, y) := c in
  let constrainedX := x in
  let constrainedY := y in
  let rightEdge := width - rectSize in
  let leftEdge := 0 in
  let topEdge := 0 in
  let bottomEdge := height - rectSize in
  let constrainedX := if x <? leftEdge then rightEdge else constrainedX in
  let constrainedX := if x >? rightEdge then leftEdge else constrainedX in
  let constrainedY := if y <? topEdge then bottomEdge else constrainedY in
  let constrainedY := if y >? bottomEdge then topEdge else constrainedY in
  (constrainedX, constrainedY).

(** [nextCoords([direction, [x, y] = head])] *)
Definition nextCoords (it : Direction * option Coord) : Coord :=
  let '(direction, c) := it in
  let '(x, y) := match c with Some c => c | None => head end in
  let '(tx, ty) := Transforms direction in
  constrainToCanvas (x + tx * rectSize, y + ty * rectSize).
End Geometry.

(** ** The turn queue *)

(** [passed([x, y] = [null, null], [direction, [instructionX, instructionY]])].
    A missing segment defaults to [[null, null]], and [null] compares as 0.
    A missing instruction cell cannot be destructured: [None] is the
    [TypeError]. *)
Definition passed (segment : option Coord) (it : Instruction) : option bool :=
  let '(x, y) := match segment with Some c => c | None => (0, 0) end in
  match icoord it with
  | None => None
  | Some (instructionX, instructionY) =>
      Some match idir it with
           | Up => y >? instructionY
           | Right => x >? instructionX
           | Down => y <? instructionY
           | Left => x <? instructionX
           end
  end.

(** [instructions.find((it) => !passed(segment, it))]: the outer [option] is
    the fault, the inner one is [undefined] when nothing is found. *)
Fixpoint find_not_passed (segment : option Coord) (its : list Instruction)
  : option (option Instruction) :=
  match its with
  | [] => Some None
  | it :: rest =>
      match passed segment it with
      | None => None
      | Some false => Some (Some it)
      | Some true => find_not_passed segment rest
      end
  end.

(** [instructions.find(...) || instructions[0]], followed by
    [const [direction] = instruction], which faults on [undefined]. *)
Definition selectInstruction (segment : option Coord) (its : list Instruction)
  : option Instruction :=
  match find_not_passed segment its with
  | None => None
  | Some (Some it) => Some it
  | Some None => its !! 0%nat
  end.

(** [instructions.forEach(function removeUnusedInstructions(instruction, i) ...)].
    [forEach] reads the length once ([len]), visits the indices [0 .. len-1]
    in order and skips an index that is no longer present; [splice(i, 1)]
    deletes in place, so later elements move down while the index moves up. *)
Fixpoint removeUnused_from (applied : gset nat) (its : list Instruction)
    (i : nat) (fuel : nat) : list Instruction :=
  match fuel with
  | O => its
  | S fuel' =>
      match its !! i with
      | None => removeUnused_from applied its (S i) fuel'
      | Some instruction =>
          if decide (iref instruction ∈ applied) then
            removeUnused_from applied its (S i) fuel'
          else if decide (i = 0%nat) then
            removeUnused_from applied its (S i) fuel'
          else
            removeUnused_from applied (delete i its) (S i) fuel'
      end
  end.

Definition removeUnusedInstructions (applied : gset nat) (its : list Instruction)
  : list Instruction :=
  removeUnused_from applied its 0 (List.length its).

(** ** The store: the module's variables and the host's pending callbacks *)

Record State := MkState {
  playing : bool;
  animationId : option nat;
  gameLoopId : option nat;
  instructions : list Instruction;
  prevSquares : option (list ID);
  nextSquares : option (list ID);
  (** allocation counter for instruction arrays *)
  nextRef : nat;
  (** callbacks registered with [setTimeout] that have not run yet *)
  timeouts : list nat;
  nextTimeoutId : nat;
  (** callbacks registered with [requestAnimationFrame] that have not run yet *)
  frames : list nat;
  nextFrameId : nat
}.

Definition set_playing (b : bool) (s : State) : State :=
  MkState b (animationId s) (gameLoopId s) (instructions s) (prevSquares s)
    (nextSquares s) (nextRef s) (timeouts s) (nextTimeoutId s) (frames s)
    (nextFrameId s).

Definition set_instructions (its : list Instruction) (s : State) : State :=
  MkState (playing s) (animationId s) (gameLoopId s) its (prevSquares s)
    (nextSquares s) (nextRef s) (timeouts s) (nextTimeoutId s) (frames s)
    (nextFrameId s).

Definition set_prevSquares (p : option (list ID)) (s : State) : State :=
  MkState (playing s) (animationId s) (gameLoopId s) (instructions s) p
    (nextSquares s) (nextRef s) (timeouts s) (nextTimeoutId s) (frames s)
    (nextFrameId s).

Definition set_nextSquares (n : option (list ID)) (s : State) : State :=
  MkState (playing s) (animationId s) (gameLoopId s) (instructions s)
    (prevSquares s) n (nextRef s) (timeouts s) (nextTimeoutId s) (frames s)
    (nextFrameId s).

(** [instructions.push([direction, head])]: a fresh array is appended. *)
Definition push_instruction (d : Direction) (c : option Coord) (s : State) : State :=
  MkState (playing s) (animationId s) (gameLoopId s)
    (instructions s ++ [MkInstruction (nextRef s) d c]) (prevSquares s)
    (nextSquares s) (S (nextRef s)) (timeouts s) (nextTimeoutId s) (frames s)
    (nextFrameId s).

(** [gameLoopId = setTimeout(gameLoop, GAME_LOOP_MS)] *)
Definition setTimeout_gameLoop (s : State) : State :=
  MkState (playing s) (animationId s) (Some (nextTimeoutId s)) (instructions s)
    (prevSquares s) (nextSquares s) (nextRef s)
    (timeouts s ++ [nextTimeoutId s]) (S (nextTimeoutId s)) (frames s)
    (nextFrameId s).

Definition cancel (id : option nat) (pending : list nat) : list nat :=
  match id with
  | None => pending
  | Some i => List.filter (fun j => negb (Nat.eqb j i)) pending
  end.

(** [clearTimeout(gameLoopId)] *)
Definition clearTimeout_gameLoopId (s : State) : State :=
  MkState (playing s) (animationId s) (gameLoopId s) (instructions s)
    (prevSquares s) (nextSquares s) (nextRef s)
    (cancel (gameLoopId s) (timeouts s)) (nextTimeoutId s) (frames s)
    (nextFrameId s).

(** [animationId = requestAnimationFrame(draw)] *)
Definition requestAnimationFrame_draw (s : State) : State :=
  MkState (playing s) (Some (nextFrameId s)) (gameLoopId s) (instructions s)
    (prevSquares s) (nextSquares s) (nextRef s) (timeouts s) (nextTimeoutId s)
    (frames s ++ [nextFrameId s]) (S (nextFrameId s)).

(** [cancelAnimationFrame(animationId)] *)
Definition cancelAnimationFrame_animationId (s : State) : State :=
  MkState (playing s) (animationId s) (gameLoopId s) (instructions s)
    (prevSquares s) (nextSquares s) (nextRef s) (timeouts s) (nextTimeoutId s)
    (cancel (animationId s) (frames s)) (nextFrameId s).

(** How a call ends; either way it leaves a store behind. *)
Inductive Completion :=
  | Normal (s : State)
  | TypeError (s : State).

Definition store (c : Completion) : State :=
  match c with Normal s => s | TypeError s => s end.

(** ** The two loops and the key handler *)

Section Engine.
Variables width height : Z.
Variable segments : nat.

(** [let instructions = [[Direction.Right, head]]] *)
Definition firstInstruction : Instruction :=
  MkInstruction 0 Right (Some (head width height)).

Definition initial : State :=
  MkState false None None [firstInstruction] None None 1 [] 0 [] 0.

(** The painting of [draw] acts on the canvas only; what it does to the
    store is kept. *)
Definition draw (s : State) : State :=
  let s := match nextSquares s with
           | Some next => set_nextSquares None (set_prevSquares (Some next) s)
           | None => s
           end in
  if playing s then requestAnimationFrame_draw s
  else cancelAnimationFrame_animationId s.

(** The callback of [reduce] in the first branch of [gameLoop]; [next[-1]]
    is [undefined]. *)
Definition extend (next : list Coord) (i : nat) : list Coord :=
  let prev := match i with O => None | S j => next !! j end in
  match prev with
  | None => next
  | Some prev => next ++ [nextCoords width height (Left, Some prev)]
  end.

Definition initialBody : list Coord :=
  fold_left extend (seq 0 segments) [head width height].

(** The [for] loop of the second branch.  The flag tells whether the loop
    ran to its end ([true]) or was cut short by a [TypeError]. *)
Fixpoint moveSegments (its : list Instruction) (prev : option (list ID))
    (todo : list nat) (applied : gset nat) (next : list ID)
  : gset nat * list ID * bool :=
  match todo with
  | [] => (applied, next, true)
  | segmentIdx :: todo' =>
      let segmentId := match prev with
                       | Some p => p !! segmentIdx
                       | None => None
                       end in
      let segment := toCoord segmentId in
      match selectInstruction segment its with
      | None => (applied, next, false)
      | Some instruction =>
          let nextCoord := nextCoords width height (idir instruction, segment) in
          moveSegments its prev todo' ({[iref instruction]} ∪ applied)
            (next ++ [toId nextCoord])
      end
  end.

(** The tail of both loops' callbacks: schedule again or cancel. *)
Definition rescheduleGameLoop (s : State) : State :=
  if playing s then setTimeout_gameLoop s else clearTimeout_gameLoopId s.

Definition gameLoop (s : State) : Completion :=
  match prevSquares s, nextSquares s with
  | None, None =>
      Normal (rescheduleGameLoop
                (set_nextSquares (Some (List.map toId initialBody)) s))
  | _, _ =>
      let '(applied, next, finished) :=
        moveSegments (instructions s) (prevSquares s) (seq 0 segments) ∅ [] in
      let s := set_nextSquares (Some next) s in
      if finished then
        Normal (rescheduleGameLoop
                  (set_instructions
                     (removeUnusedInstructions applied (instructions s)) s))
      else TypeError s
  end.

Definition pushIf (b : bool) (d : Direction) (c : option Coord) (s : State) : State :=
  if b then push_instruction d c s else s.

Definition handleKeyEvents (key : string) (s : State) : Completion :=
  if String.eqb key "Enter" && negb (playing s) then
    gameLoop (draw (set_playing true s))
  else
    let squares := match nextSquares s with
                   | Some next => Some next
                   | None => prevSquares s
                   end in
    let head := toCoord (match squares with
                         | Some sq => sq !! 0%nat
                         | None => None
                         end) in
    let s := pushIf (String.eqb key "ArrowUp") Up head s in
    let s := pushIf (String.eqb key "ArrowRight") Right head s in
    let s := pushIf (String.eqb key "ArrowDown") Down head s in
    let s := pushIf (String.eqb key "ArrowLeft") Left head s in
    let s := if String.eqb key "Escape" then set_playing false s else s in
    Normal s.

(** ** The host: what can happen to the page *)

Inductive Event :=
  | KeyDown (key : string)
  | TimeoutFires (id : nat)
  | FrameFires (id : nat).

Definition remove_id (id : nat) (pending : list nat) : list nat :=
  cancel (Some id) pending.

Definition fire_timeout (id : nat) (s : State) : State :=
  MkState (playing s) (animationId s) (gameLoopId s) (instructions s)
    (prevSquares s) (nextSquares s) (nextRef s)
    (remove_id id (timeouts s)) (nextTimeoutId s) (frames s) (nextFrameId s).

Definition fire_frame (id : nat) (s : State) : State :=
  MkState (playing s) (animationId s) (gameLoopId s) (instructions s)
    (prevSquares s) (nextSquares s) (nextRef s) (timeouts s) (nextTimeoutId s)
    (remove_id id (frames s)) (nextFrameId s).

(** An event that is not enabled (a callback that is not pending) yields
    [None]. *)
Definition dispatch (e : Event) (s : State) : option Completion :=
  match e with
  | KeyDown key => Some (handleKeyEvents key s)
  | TimeoutFires id =>
      if existsb (Nat.eqb id) (timeouts s)
      then Some (gameLoop (fire_timeout id s)) else None
  | FrameFires id =>
      if existsb (Nat.eqb id) (frames s)
      then Some (Normal (draw (fire_frame id s))) else None
  end.

(** A fault ends the callback, not the page: the store it left is the
    store the next event sees. *)
Fixpoint run (es : list Event) (s : State) : option State :=
  match es with
  | [] => Some s
  | e :: es' =>
      match dispatch e s with
      | Some c => run es' (store c)
      | None => None
      end
  end.

Inductive reachable : State -> Prop :=
  | reachable_initial : reachable initial
  | reachable_step s e c :
      reachable s -> dispatch e s = Some c -> reachable (store c).
End Engine.

(** ** Vocabulary of the statements *)

(** One move of a cell: [nextCoords([d, c])] for a cell that is present. *)
Definition step (width height : Z) (d : Direction) (c : Coord) : Coord :=
  nextCoords width height (d, Some c).

(** What [constrainToCanvas] does to one coordinate: the second [if] of an
    axis overrides the first. *)
Definition wrap1 (edge stride v : Z) : Z :=
  if v >? edge - stride then 0 else if v <? 0 then edge - stride else v.

Definition forward (edge stride v : Z) : Z := wrap1 edge stride (v + stride).
Definition backward (edge stride v : Z) : Z := wrap1 edge stride (v - stride).

(** The playfield extent on the axis a direction moves along. *)
Definition extent (width height : Z) (d : Direction) : Z :=
  match d with
  | Up | Down => height
  | Right | Left => width
  end.

(** The cells a walk in direction [d] comes back to: whole strides away from
    the edge at which the walk re-enters the canvas (coordinate 0 for [Up] and
    [Right], coordinate [extent - rectSize] for [Down] and [Left]). *)
Definition on_track (width height : Z) (d : Direction) (c : Coord) : Prop :=
  match d with
  | Up => snd c mod rectSize width height = 0
  | Right => fst c mod rectSize width height = 0
  | Down => (height - snd c) mod rectSize width height = 0
  | Left => (width - fst c) mod rectSize width height = 0
  end.

(** "The segment has moved strictly beyond the turn's cell", in the words of
    the specification. *)
Definition hasPassed (segment : Coord) (turn : Instruction) : Prop :=
  match icoord turn with
  | Some issuedAt =>
      match idir turn with
      | Up => snd segment > snd issuedAt
      | Right => fst segment > fst issuedAt
      | Down => snd segment < snd issuedAt
      | Left => fst segment < fst issuedAt
      end
  | None => False
  end.

(** An instruction as its type [[Direction, Coord]] declares it: the cell is
    there. *)
Definition anchored (turn : Instruction) : Prop := is_Some (icoord turn).

(** The direction an arrow key stands for. *)
Definition arrow (key : string) : option Direction :=
  if String.eqb key "ArrowUp" then Some Up
  else if String.eqb key "ArrowRight" then Some Right
  else if String.eqb key "ArrowDown" then Some Down
  else if String.eqb key "ArrowLeft" then Some Left
  else None.

Definition keeps_first (width height : Z) (s : State) : Prop :=
  instructions s !! 0%nat = Some (firstInstruction width height).

(** Each cell but the last is followed by its [Left] neighbour. *)
Definition trails (width height : Z) (body : list Coord) : Prop :=
  forall i c, (S i < List.length body)%nat -> body !! i = Some c ->
              body !! S i = Some (step width height Left c).

Fixpoint free_of (c : ascii) (s : string) : bool :=
  match s with
  | EmptyString => true
  | String a s' => negb (Ascii.eqb a c) && free_of c s'
  end.

(** ** What [draw] paints *)

(** The calls [draw] makes on the canvas context.  The corner is the decoded
    key (see [toCoord] for [None]). *)
Inductive CanvasCall :=
  | clearRect (corner : option Coord) (w h : Z)
  | fillRect (corner : option Coord) (w h : Z).

(** [squares.includes(square)] on an array of strings *)
Definition includes (squares : list ID) (square : ID) : bool :=
  existsb (String.eqb square) squares.

(** The callback [clearRemovedSquares]; [nextSquares] is the array tested by
    the enclosing [if]. *)
Definition clearRemovedSquares (width height : Z) (nextSquares : list ID)
    (square : ID) : list CanvasCall :=
  if includes nextSquares square then []
  else [clearRect (toCoord (Some square)) (rect_size width height)
          (rect_size width height)].

(** The callback [drawAddedSquares]; [prevSquares?.includes(square)] is
    [undefined], hence falsy, when there is no previous body. *)
Definition drawAddedSquares (width height : Z) (prevSquares : option (list ID))
    (square : ID) : list CanvasCall :=
  if match prevSquares with
     | Some prev => includes prev square
     | None => false
     end
  then []
  else [fillRect (toCoord (Some square)) (rect_size width height)
          (rect_size width height)].

(** The canvas calls of one run of [draw] from the store [s], in order.
    (Setting [fillStyle] to the constant "black" is left out, and so is the
    clearing of the start text by the key handler, whose rectangle comes from
    [measureText].) *)
Definition paint (width height : Z) (s : State) : list CanvasCall :=
  match nextSquares s with
  | Some next =>
      match prevSquares s with
      | Some prev => flat_map (clearRemovedSquares width height next) prev
      | None => []
      end ++ flat_map (drawAddedSquares width height (prevSquares s)) next
  | None => []
  end.

(** One [clearRect] and one [fillRect] of a cell's rectangle. *)
Definition clearCell (width height : Z) (c : Coord) : CanvasCall :=
  clearRect (Some c) (rect_size width height) (rect_size width height).
Definition fillCell (width height : Z) (c : Coord) : CanvasCall :=
  fillRect (Some c) (rect_size width height) (rect_size width height).

(** ** Further vocabulary *)

(** A cell whose rectangle lies on the canvas. *)
Definition in_canvas (width height : Z) (c : Coord) : Prop :=
  0 <= fst c <= width - rectSize width height /\
  0 <= snd c <= height - rectSize width height.

(** What the [forEach] with [splice] leaves of the queue behind index 0: an
    instruction that was not applied goes, and its successor is stepped
    over. *)
Fixpoint prune_tail (applied : gset nat) (its : list Instruction)
  : list Instruction :=
  match its with
  | [] => []
  | t :: rest =>
      if decide (iref t ∈ applied) then t :: prune_tail applied rest
      else match rest with
           | [] => []
           | u :: rest' => u :: prune_tail applied rest'
           end
  end.

(** No instruction that was not applied is directly followed by another
    one. *)
Fixpoint lonely (applied : gset nat) (its : list Instruction) : Prop :=
  match its with
  | [] => True
  | t :: rest =>
      (iref t ∉ applied ->
       match rest with [] => True | u :: _ => iref u ∈ applied end) /\
      lonely applied rest
  end.

(** Every key of a (possibly absent) body is the key of a cell on the
    canvas. *)
Definition keys_on_canvas (width height : Z) (squares : option (list ID)) : Prop :=
  match squares with
  | None => True
  | Some keys =>
      Forall (fun k => exists c, k = toId c /\ in_canvas width height c) keys
  end.

(** [k] rounds of one tick followed by one frame, with the callback ids the
    host hands out when nothing else happens. *)
Definition rounds (k : nat) : list Event :=
  flat_map (fun i => [TimeoutFires i; FrameFires (S i)]) (seq 0 k).

(** The store after Enter, the first frame and [k] such rounds. *)
Definition cruising (width height : Z) (segments k : nat) : State :=
  MkState true (Some (S k)) (Some k) [firstInstruction width height]
    (Some (List.map toId
             (List.map (Nat.iter k (step width height Right))
                (initialBody width height segments))))
    None 1 [k] (S k) [S k] (S (S k)).

Definition bodies_on_canvas (width height : Z) (s : State) : Prop :=
  keys_on_canvas width height (prevSquares s) /\
  keys_on_canvas width height (nextSquares s).

(** * Properties *)

(** ** The key codec is lossless *)

Lemma split_free c s : free_of c s = true -> split c s = [s].
Proof.
  induction s as [|a s IH]; simpl; [reflexivity|].
  destruct (Ascii.eqb a c); simpl; [discriminate|].
  intros Hs. now rewrite (IH Hs).
Qed.

Lemma split_append c a b :
  free_of c a = true ->
  split c (a ++ String c b)%string = a :: split c b.
Proof.
  induction a as [|x a IH]; simpl.
  - now rewrite Ascii.eqb_refl.
  - destruct (Ascii.eqb x c); simpl; [discriminate|].
    intros Ha. now rewrite (IH Ha).
Qed.

Lemma string_of_uint_free d :
  free_of DELIMITER (NilEmpty.string_of_uint d) = true.
Proof. induction d; simpl; auto. Qed.

Lemma numToString_free z : free_of DELIMITER (numToString z) = true.
Proof.
  unfold numToString. destruct (Z.to_int z); simpl;
    apply string_of_uint_free.
Qed.

Lemma Number_numToString z : Number (numToString z) = Some z.
Proof.
  unfold Number, numToString.
  rewrite NilEmpty.isi. simpl. now rewrite DecimalZ.of_to.
Qed.

Lemma toCoord_toId c : toCoord (Some (toId c)) = Some c.
Proof.
  destruct c as [x y]. unfold toCoord, toId. simpl fst; simpl snd.
  rewrite split_append by apply numToString_free.
  rewrite split_free by apply numToString_free.
  simpl. now rewrite !Number_numToString.
Qed.

Lemma keys_decode (body : list Coord) :
  List.map (fun id => toCoord (Some id)) (List.map toId body)
  = List.map Some body.
Proof.
  rewrite List.map_map. apply List.map_ext. intros c. apply toCoord_toId.
Qed.

(** ** Wrapping *)

Lemma rectSize_bounds width height :
  0 < width -> 0 < height ->
  1 <= rectSize width height <= width /\ rectSize width height <= height.
Proof.
  unfold rectSize, rect_size, rect_spacing, size, smaller.
  intros Hw Hh.
  pose proof (Z.div_pos (Z.min width height) 10).
  assert (Z.min width height / 10 < Z.min width height)
    by (apply Z.div_lt; lia).
  lia.
Qed.

Lemma constrainToCanvas_wrap1 width height x y :
  constrainToCanvas width height (x, y) =
  (wrap1 width (rectSize width height) x, wrap1 height (rectSize width height) y).
Proof. reflexivity. Qed.

Lemma wrap1_range edge stride v :
  1 <= stride <= edge -> 0 <= wrap1 edge stride v < edge.
Proof.
  intros Hs. unfold wrap1.
  destruct (Z.gtb_spec v (edge - stride)); [lia|].
  destruct (Z.ltb_spec v 0); lia.
Qed.

Lemma wrap1_id edge stride v :
  0 <= v <= edge - stride -> wrap1 edge stride v = v.
Proof.
  intros Hv. unfold wrap1.
  destruct (Z.gtb_spec v (edge - stride)); [lia|].
  destruct (Z.ltb_spec v 0); lia.
Qed.

Lemma wrap1_low edge stride v :
  1 <= stride <= edge -> v < 0 -> wrap1 edge stride v = edge - stride.
Proof.
  intros Hs Hv. unfold wrap1.
  destruct (Z.gtb_spec v (edge - stride)); [lia|].
  destruct (Z.ltb_spec v 0); lia.
Qed.

Lemma wrap1_high edge stride v :
  v > edge - stride -> wrap1 edge stride v = 0.
Proof.
  intros Hv. unfold wrap1.
  destruct (Z.gtb_spec v (edge - stride)); lia.
Qed.

(** C2.  On a canvas of positive width and height, [constrainToCanvas]
    treats the two axes independently: a coordinate below 0 becomes the far
    edge (extent minus [rectSize]), a coordinate above the far edge becomes 0,
    any other coordinate is kept; the result lies in [[0, width)] by
    [[0, height)].  The function is total: there is no error case. *)
Theorem constrainToCanvas_spec (width height x y : Z) :
  0 < width -> 0 < height ->
  let rightEdge := width - rectSize width height in
  let bottomEdge := height - rectSize width height in
  let c := constrainToCanvas width height (x, y) in
  (x < 0 -> fst c = rightEdge) /\
  (x > rightEdge -> fst c = 0) /\
  (0 <= x <= rightEdge -> fst c = x) /\
  (y < 0 -> snd c = bottomEdge) /\
  (y > bottomEdge -> snd c = 0) /\
  (0 <= y <= bottomEdge -> snd c = y) /\
  0 <= fst c < width /\ 0 <= snd c < height.
Proof.
  intros Hw Hh.
  destruct (rectSize_bounds width height Hw Hh) as [Hsw Hsh].
  rewrite constrainToCanvas_wrap1. cbn [fst snd].
  repeat split;
    try (intros; (apply wrap1_low || apply wrap1_high || apply wrap1_id); lia);
    apply wrap1_range; lia.
Qed.

Lemma constrainToCanvas_spec_witness :
  let c := constrainToCanvas 100 100 (-11, 95) in
  fst c = 89 /\ snd c = 0.
Proof.
  pose proof (constrainToCanvas_spec 100 100 (-11) 95 ltac:(lia) ltac:(lia)) as H.
  cbv zeta in H. destruct H as (H1 & _ & _ & _ & H5 & _).
  split; [apply H1; lia | apply H5; vm_compute; reflexivity].
Defined.

(** C3.  For a cell that is present, [nextCoords] is [constrainToCanvas]
    applied to the cell moved by the direction's vector times [rectSize], and
    the vectors are Up=(0,1), Right=(1,0), Down=(0,-1), Left=(-1,0).
    [nextCoords] is a function of the canvas size and its argument only: it
    neither reads nor returns a [State]. *)
Theorem nextCoords_spec (width height : Z) (d : Direction) (cell : Coord) :
  nextCoords width height (d, Some cell) =
    constrainToCanvas width height
      (fst cell + fst (Transforms d) * rectSize width height,
       snd cell + snd (Transforms d) * rectSize width height) /\
  Transforms Up = (0, 1) /\ Transforms Right = (1, 0) /\
  Transforms Down = (0, -1) /\ Transforms Left = (-1, 0).
Proof.
  repeat split. destruct cell as [x y]. unfold nextCoords.
  destruct (Transforms d) as [tx ty]. reflexivity.
Qed.

(** ** Walking along one axis *)

Section Axis.
Variables edge stride : Z.
Hypothesis stride_pos : 1 <= stride.

Lemma forward_run (m : nat) (j : Z) :
  0 <= j -> (j + Z.of_nat m) * stride <= edge - stride ->
  Nat.iter m (forward edge stride) (j * stride) = (j + Z.of_nat m) * stride.
Proof.
  induction m as [|m IH]; intros Hj Hm.
  - simpl. f_equal. lia.
  - rewrite Nat.iter_succ, IH by nia.
    unfold forward. rewrite wrap1_id by nia. nia.
Qed.

Lemma backward_run (m : nat) (j : Z) :
  0 <= j -> 0 <= edge - stride - (j + Z.of_nat m) * stride ->
  Nat.iter m (backward edge stride) (edge - stride - j * stride)
  = edge - stride - (j + Z.of_nat m) * stride.
Proof.
  induction m as [|m IH]; intros Hj Hm.
  - simpl. f_equal. f_equal. lia.
  - rewrite Nat.iter_succ, IH by nia.
    unfold backward. rewrite wrap1_id by nia. nia.
Qed.

(** The last multiple of the stride that still fits before the far edge. *)
Lemma laps :
  stride <= edge ->
  let k := edge / stride - 1 in
  0 <= k /\ k * stride <= edge - stride < (k + 1) * stride.
Proof.
  intros He k. subst k.
  pose proof (Z.div_mod edge stride ltac:(lia)).
  pose proof (Z.mod_pos_bound edge stride ltac:(lia)).
  nia.
Qed.

(** From stride [j]: up to the last stride, over the edge to 0, and [j]
    strides on. *)
Lemma forward_loop (j : Z) :
  0 <= j -> j * stride <= edge - stride ->
  Nat.iter (Z.to_nat (edge / stride)) (forward edge stride) (j * stride)
  = j * stride.
Proof.
  intros Hj Hv.
  destruct (laps ltac:(nia)) as [Hk0 Hk].
  set (k := edge / stride - 1) in *.
  assert (Hjk : j <= k) by nia.
  replace (Z.to_nat (edge / stride))
    with (Z.to_nat j + S (Z.to_nat (k - j)))%nat by lia.
  rewrite Nat.iter_add, Nat.iter_succ.
  rewrite (forward_run (Z.to_nat (k - j)) j) by (rewrite ?Z2Nat.id; nia).
  rewrite Z2Nat.id by lia.
  replace (forward edge stride ((j + (k - j)) * stride)) with (0 * stride).
  - rewrite forward_run by (rewrite ?Z2Nat.id; nia).
    rewrite Z2Nat.id by lia. lia.
  - unfold forward. rewrite wrap1_high by nia. lia.
Qed.

Lemma backward_loop (j : Z) :
  0 <= j -> 0 <= edge - stride - j * stride ->
  Nat.iter (Z.to_nat (edge / stride)) (backward edge stride)
    (edge - stride - j * stride)
  = edge - stride - j * stride.
Proof.
  intros Hj Hv.
  destruct (laps ltac:(nia)) as [Hk0 Hk].
  set (k := edge / stride - 1) in *.
  assert (Hjk : j <= k) by nia.
  replace (Z.to_nat (edge / stride))
    with (Z.to_nat j + S (Z.to_nat (k - j)))%nat by lia.
  rewrite Nat.iter_add, Nat.iter_succ.
  rewrite (backward_run (Z.to_nat (k - j)) j) by (rewrite ?Z2Nat.id; nia).
  rewrite Z2Nat.id by lia.
  replace (backward edge stride (edge - stride - (j + (k - j)) * stride))
    with (edge - stride - 0 * stride).
  - rewrite backward_run by (rewrite ?Z2Nat.id; nia).
    rewrite Z2Nat.id by lia. lia.
  - unfold backward. rewrite wrap1_low by nia. lia.
Qed.

Lemma forward_cycle (v : Z) :
  0 <= v <= edge - stride -> v mod stride = 0 ->
  Nat.iter (Z.to_nat (edge / stride)) (forward edge stride) v = v.
Proof.
  intros Hv Hmod.
  pose proof (Z.div_mod v stride ltac:(lia)) as Hd.
  replace v with (v / stride * stride) by lia.
  apply forward_loop; nia.
Qed.

Lemma backward_cycle (v : Z) :
  0 <= v <= edge - stride -> (edge - v) mod stride = 0 ->
  Nat.iter (Z.to_nat (edge / stride)) (backward edge stride) v = v.
Proof.
  intros Hv Hmod.
  pose proof (Z.div_mod (edge - v) stride ltac:(lia)) as Hd.
  replace v with (edge - stride - ((edge - v) / stride - 1) * stride) by lia.
  apply backward_loop; nia.
Qed.
End Axis.

(** ** Walking across the canvas *)

Lemma step_axes width height d x y :
  let s := rectSize width height in
  step width height d (x, y) =
  match d with
  | Up => (wrap1 width s x, forward height s y)
  | Right => (forward width s x, wrap1 height s y)
  | Down => (wrap1 width s x, backward height s y)
  | Left => (backward width s x, wrap1 height s y)
  end.
Proof.
  cbn zeta. unfold step, nextCoords, forward, backward.
  destruct d; cbn [Transforms]; rewrite constrainToCanvas_wrap1;
    f_equal; f_equal; lia.
Qed.

Lemma iter_step_x width height d (f : Z -> Z) (n : nat) x y :
  (forall x y, step width height d (x, y)
               = (f x, wrap1 height (rectSize width height) y)) ->
  0 <= y <= height - rectSize width height ->
  Nat.iter n (step width height d) (x, y) = (Nat.iter n f x, y).
Proof.
  intros Hstep Hy. induction n as [|n IH]; [reflexivity|].
  rewrite !Nat.iter_succ, IH, Hstep. now rewrite wrap1_id.
Qed.

Lemma iter_step_y width height d (f : Z -> Z) (n : nat) x y :
  (forall x y, step width height d (x, y)
               = (wrap1 width (rectSize width height) x, f y)) ->
  0 <= x <= width - rectSize width height ->
  Nat.iter n (step width height d) (x, y) = (x, Nat.iter n f y).
Proof.
  intros Hstep Hx. induction n as [|n IH]; [reflexivity|].
  rewrite !Nat.iter_succ, IH, Hstep. now rewrite wrap1_id.
Qed.

Lemma rectSize_pos_of_room width height x y :
  0 <= x <= width - rectSize width height ->
  0 <= y <= height - rectSize width height ->
  1 <= rectSize width height.
Proof.
  unfold rectSize, rect_size, rect_spacing, size, smaller. intros Hx Hy.
  pose proof (Z.div_mod (Z.min width height) 10 ltac:(lia)).
  pose proof (Z.mod_pos_bound (Z.min width height) 10 ltac:(lia)).
  lia.
Qed.

(** C9, amended.  For a cell inside the canvas (both coordinates between 0
    and extent minus [rectSize]) that lies on the track of direction [d]
    (whole strides from 0 for Up and Right, whole strides from the extent for
    Down and Left), stepping [extent / rectSize] times (rounded down) in
    direction [d] comes back to the cell. *)
Theorem step_cycle (width height : Z) (d : Direction) (c : Coord) :
  0 <= fst c <= width - rectSize width height ->
  0 <= snd c <= height - rectSize width height ->
  on_track width height d c ->
  Nat.iter (Z.to_nat (extent width height d / rectSize width height))
    (step width height d) c = c.
Proof.
  destruct c as [x y]. cbn [fst snd]. intros Hx Hy Htrack.
  pose proof (rectSize_pos_of_room width height x y Hx Hy) as Hs.
  destruct d; cbn [extent on_track fst snd] in *.
  - rewrite (iter_step_y _ _ Up (forward height (rectSize width height)))
      by (intros; try apply (step_axes _ _ Up); assumption).
    now rewrite forward_cycle.
  - rewrite (iter_step_x _ _ Right (forward width (rectSize width height)))
      by (intros; try apply (step_axes _ _ Right); assumption).
    now rewrite forward_cycle.
  - rewrite (iter_step_y _ _ Down (backward height (rectSize width height)))
      by (intros; try apply (step_axes _ _ Down); assumption).
    now rewrite backward_cycle.
  - rewrite (iter_step_x _ _ Left (backward width (rectSize width height)))
      by (intros; try apply (step_axes _ _ Left); assumption).
    now rewrite backward_cycle.
Qed.

Lemma step_cycle_witness :
  Nat.iter (Z.to_nat (extent 100 100 Left / rectSize 100 100))
    (step 100 100 Left) (23, 50) = (23, 50).
Proof.
  apply step_cycle; cbn [fst snd on_track]; vm_compute;
    try split; congruence.
Defined.

(** C9 as stated fails: on a 100 by 100 canvas ([rectSize] 11) the head
    cell (50, 50) is not a multiple of 11; nine steps to the right lead to
    (55, 50). *)
Lemma step_cycle_counterexample :
  Nat.iter (Z.to_nat (extent 100 100 Right / rectSize 100 100))
    (step 100 100 Right) (head 100 100) = (55, 50) /\
  Nat.iter (Z.to_nat (extent 100 100 Right / rectSize 100 100))
    (step 100 100 Right) (head 100 100) <> head 100 100.
Proof. split; [vm_compute; reflexivity | vm_compute; discriminate]. Qed.

(** ** Turn selection *)

Lemma passed_hasPassed segment turn :
  anchored turn ->
  (passed (Some segment) turn = Some true /\ hasPassed segment turn) \/
  (passed (Some segment) turn = Some false /\ ~ hasPassed segment turn).
Proof.
  intros [[ix iy] Hc]. destruct segment as [x y].
  unfold passed, hasPassed. rewrite Hc. cbn [fst snd].
  destruct (idir turn);
    [ destruct (Z.gtb_spec y iy) | destruct (Z.gtb_spec x ix)
    | destruct (Z.ltb_spec y iy) | destruct (Z.ltb_spec x ix) ];
    (left; split; [reflexivity | lia]) || (right; split; [reflexivity | lia]).
Qed.

Lemma find_not_passed_spec segment its :
  Forall anchored its ->
  (exists i t,
      find_not_passed (Some segment) its = Some (Some t) /\
      its !! i = Some t /\ ~ hasPassed segment t /\
      forall j u, (j < i)%nat -> its !! j = Some u -> hasPassed segment u) \/
  (find_not_passed (Some segment) its = Some None /\
   forall u, u ∈ its -> hasPassed segment u).
Proof.
  induction 1 as [|t its Ht Hits IH]; simpl.
  - right. split; [reflexivity|]. intros u Hu. inversion Hu.
  - destruct (passed_hasPassed segment t Ht) as [[-> Hp] | [-> Hp]].
    + destruct IH as [(i & t' & Hf & Hi & Hn & Hbefore) | [Hf Hall]].
      * left. exists (S i), t'. repeat split; auto.
        intros [|j] u Hj Hu; simpl in Hu.
        -- now inversion Hu; subst.
        -- apply (Hbefore j); [lia | exact Hu].
      * right. split; [exact Hf|].
        intros u Hu. apply elem_of_cons in Hu as [-> | Hu]; auto.
    + left. exists 0%nat, t. repeat split; auto. intros j u Hj. lia.
Qed.

(** Selection on a queue in which every instruction has its cell, as the
    type [Instruction] declares: the result is the first instruction, oldest
    first, that the segment has not passed, or the one at index 0 when the
    segment has passed them all. *)
Lemma selectInstruction_spec (segment : Coord) (its : list Instruction) :
  its <> [] -> Forall anchored its ->
  exists t,
    selectInstruction (Some segment) its = Some t /\
    ((exists i,
        its !! i = Some t /\ ~ hasPassed segment t /\
        forall j u, (j < i)%nat -> its !! j = Some u -> hasPassed segment u) \/
     ((forall u, u ∈ its -> hasPassed segment u) /\ its !! 0%nat = Some t)).
Proof.
  intros Hne Hanch. unfold selectInstruction.
  destruct (find_not_passed_spec segment its Hanch)
    as [(i & t & -> & Hi & Hn & Hbefore) | [-> Hall]].
  - exists t. split; [reflexivity|]. left. now exists i.
  - destruct its as [|t its]; [contradiction|].
    exists t. split; [reflexivity|]. right. split; [exact Hall | reflexivity].
Qed.

Lemma selectInstruction_spec_witness :
  exists t,
    selectInstruction (Some (61, 50))
      [MkInstruction 0 Right (Some (50, 50)); MkInstruction 1 Up (Some (61, 50))]
    = Some t /\ iref t = 1%nat.
Proof.
  destruct (selectInstruction_spec (61, 50)
              [MkInstruction 0 Right (Some (50, 50));
               MkInstruction 1 Up (Some (61, 50))])
    as (t & Ht & _).
  - discriminate.
  - repeat constructor; eexists; reflexivity.
  - exists t. split; [exact Ht|].
    vm_compute in Ht. injection Ht as <-. reflexivity.
Defined.

(** C1, the code at a failing input.  On a 100 by 100 canvas: ArrowUp and
    ArrowLeft before Enter, then Enter, a frame, a tick and a frame.  The
    queue is not empty: it holds the initial instruction and the ArrowLeft
    instruction, which the key handler stored without a cell.  The head is at
    (61, 50) and has passed the initial instruction (Right, 61 > 50).  The
    selection for the head then produces no result: it ends in a
    [TypeError] when [passed] destructures the missing cell, where the claim
    promises the first instruction not passed or the one at index 0. *)
Theorem selectInstruction_throws_on_early_turn :
  exists s rest,
    run 100 100 5
      [KeyDown "ArrowUp"; KeyDown "ArrowLeft"; KeyDown "Enter"; FrameFires 0;
       TimeoutFires 0; FrameFires 1] (initial 100 100) = Some s /\
    instructions s
    = [MkInstruction 0 Right (Some (50, 50)); MkInstruction 2 Left None] /\
    prevSquares s = Some (toId (61, 50) :: rest) /\
    hasPassed (61, 50) (MkInstruction 0 Right (Some (50, 50))) /\
    selectInstruction (Some (61, 50)) (instructions s) = None.
Proof.
  do 2 eexists.
  split; [vm_compute; reflexivity|].
  split; [reflexivity|].
  split; [vm_compute; reflexivity|].
  split; [unfold hasPassed; cbn; lia | reflexivity].
Qed.

(** ** Pruning *)

Lemma removeUnused_from_first applied fuel :
  forall its i, removeUnused_from applied its i fuel !! 0%nat = its !! 0%nat.
Proof.
  induction fuel as [|fuel IH]; intros its i; simpl; [reflexivity|].
  destruct (its !! i) as [instruction|]; [|apply IH].
  destruct (decide (iref instruction ∈ applied)); [apply IH|].
  destruct (decide (i = 0%nat)); [apply IH|].
  rewrite IH. apply list_lookup_delete_lt. lia.
Qed.

Lemma removeUnusedInstructions_first applied its :
  removeUnusedInstructions applied its !! 0%nat = its !! 0%nat.
Proof. apply removeUnused_from_first. Qed.

(** Two neighbours that were not applied: the second one is stepped over. *)
Lemma removeUnusedInstructions_adjacent (applied : gset nat) r u l :
  iref r ∈ applied -> iref u ∉ applied -> iref l ∉ applied ->
  removeUnusedInstructions applied [r; u; l] = [r; l].
Proof.
  intros Hr Hu Hl. unfold removeUnusedInstructions. simpl.
  rewrite decide_True by exact Hr. simpl.
  rewrite decide_False by exact Hu. simpl.
  reflexivity.
Qed.

(** C4, the code at a failing input.  With the queue [r; u; l] and only [r]
    applied, the [forEach] deletes [u] at index 1, which moves [l] down to
    index 1 while the iteration goes on to index 2: [l] was selected by no
    segment, is not at index 0, and is still queued.  The queue arises on a
    100 by 100 canvas from Enter, one frame, ArrowUp, ArrowLeft and one
    tick. *)
Theorem removeUnusedInstructions_skips :
  let r := MkInstruction 0 Right (Some (50, 50)) in
  let u := MkInstruction 1 Up (Some (50, 50)) in
  let l := MkInstruction 2 Left (Some (50, 50)) in
  removeUnusedInstructions {[0%nat]} [r; u; l] = [r; l] /\
  (iref l ∉ ({[0%nat]} : gset nat)) /\
  option_map instructions
    (run 100 100 5
       [KeyDown "Enter"; FrameFires 0; KeyDown "ArrowUp"; KeyDown "ArrowLeft";
        TimeoutFires 0] (initial 100 100))
  = Some [r; l].
Proof.
  cbv zeta. split; [|split].
  - vm_compute. reflexivity.
  - vm_compute. intros H. discriminate H.
  - vm_compute. reflexivity.
Qed.

(** ** The first instruction stays *)

Section Invariant.
Variables width height : Z.
Variable segments : nat.

Lemma push_keeps_first d c s :
  keeps_first width height s ->
  keeps_first width height (push_instruction d c s).
Proof.
  unfold keeps_first. cbn [push_instruction instructions]. intros H.
  rewrite lookup_app_l; [exact H|].
  apply lookup_lt_Some in H. exact H.
Qed.

Lemma pushIf_keeps_first b d c s :
  keeps_first width height s -> keeps_first width height (pushIf b d c s).
Proof. destruct b; simpl; auto using push_keeps_first. Qed.

Lemma draw_instructions s : instructions (draw s) = instructions s.
Proof.
  unfold draw. destruct (nextSquares s); simpl;
    destruct (playing s); reflexivity.
Qed.

Lemma rescheduleGameLoop_instructions s :
  instructions (rescheduleGameLoop s) = instructions s.
Proof. unfold rescheduleGameLoop. destruct (playing s); reflexivity. Qed.

Lemma gameLoop_keeps_first s :
  keeps_first width height s ->
  keeps_first width height (store (gameLoop width height segments s)).
Proof.
  unfold keeps_first, gameLoop. intros H.
  destruct (moveSegments width height (instructions s) (prevSquares s)
              (seq 0 segments) ∅ []) as [[applied next] finished].
  assert (Hsteady :
    instructions
      (store (if finished
              then Normal (rescheduleGameLoop
                             (set_instructions
                                (removeUnusedInstructions applied
                                   (instructions (set_nextSquares (Some next) s)))
                                (set_nextSquares (Some next) s)))
              else TypeError (set_nextSquares (Some next) s))) !! 0%nat
    = Some (firstInstruction width height)).
  { destruct finished; cbn [store].
    - rewrite rescheduleGameLoop_instructions. cbn [set_instructions instructions].
      rewrite removeUnusedInstructions_first. exact H.
    - exact H. }
  destruct (prevSquares s), (nextSquares s); try exact Hsteady.
  cbn [store]. rewrite rescheduleGameLoop_instructions. exact H.
Qed.

Lemma handleKeyEvents_keeps_first key s :
  keeps_first width height s ->
  keeps_first width height (store (handleKeyEvents width height segments key s)).
Proof.
  intros H. unfold handleKeyEvents.
  destruct (String.eqb key "Enter" && negb (playing s)).
  - apply gameLoop_keeps_first. unfold keeps_first.
    rewrite draw_instructions. exact H.
  - cbn [store].
    match goal with
    | |- keeps_first _ _ (if ?b then set_playing false ?t else ?t) =>
        assert (Ht : keeps_first width height t)
          by (repeat apply pushIf_keeps_first; exact H);
        destruct b; exact Ht
    end.
Qed.

Lemma dispatch_keeps_first e s c :
  keeps_first width height s ->
  dispatch width height segments e s = Some c ->
  keeps_first width height (store c).
Proof.
  intros H. destruct e as [key|id|id]; simpl.
  - intros [= <-]. now apply handleKeyEvents_keeps_first.
  - destruct (existsb (Nat.eqb id) (timeouts s)); intros [= <-].
    now apply gameLoop_keeps_first.
  - destruct (existsb (Nat.eqb id) (frames s)); intros [= <-].
    cbn [store]. unfold keeps_first. rewrite draw_instructions. exact H.
Qed.

Lemma reachable_keeps_first s :
  reachable width height segments s -> keeps_first width height s.
Proof.
  induction 1 as [|s e c Hs IH Hstep]; [reflexivity|].
  eapply dispatch_keeps_first; eauto.
Qed.
End Invariant.

(** C5.  Pruning never removes the instruction at index 0: whatever the
    applied set, the queue after [removeUnusedInstructions] has at index 0
    what it had before.  Hence in every state the page can reach, after any
    number of key presses, ticks and frames, the queue still starts with the
    instruction it was created with, and is not empty. *)
Theorem first_instruction_never_removed (width height : Z) (segments : nat) :
  (forall applied its,
      removeUnusedInstructions applied its !! 0%nat = its !! 0%nat) /\
  (forall s, reachable width height segments s ->
      instructions s !! 0%nat = Some (firstInstruction width height) /\
      instructions s <> []).
Proof.
  split; [apply removeUnusedInstructions_first|].
  intros s Hs. pose proof (reachable_keeps_first _ _ _ s Hs) as H.
  split; [exact H|]. intros Hnil. unfold keeps_first in H.
  rewrite Hnil in H. discriminate H.
Qed.

(** ** The initial body *)

Section InitialBody.
Variables width height : Z.

Lemma extend_grows next (i : nat) :
  List.length next = S i -> trails width height next ->
  let next' := extend width height next (S i) in
  List.length next' = S (S i) /\ trails width height next' /\
  next' !! 0%nat = next !! 0%nat.
Proof.
  intros Hlen Htr. unfold extend.
  destruct (next !! i) as [prev|] eqn:Hprev.
  - cbn zeta. rewrite length_app, Hlen. cbn [List.length].
    split; [lia|]. split.
    + intros j c Hj Hc. rewrite length_app, Hlen in Hj. cbn [List.length] in Hj.
      destruct (decide (j = i)) as [->|Hne].
      * rewrite lookup_app_l in Hc by lia.
        rewrite Hprev in Hc. injection Hc as <-.
        rewrite lookup_app_r by lia.
        rewrite Hlen, Nat.sub_diag. reflexivity.
      * rewrite lookup_app_l in Hc by lia.
        rewrite lookup_app_l by lia.
        apply Htr; [lia | exact Hc].
    + apply lookup_app_l. lia.
  - apply lookup_ge_None in Hprev. lia.
Qed.

Lemma fold_extend_grows (m : nat) :
  forall (a : nat) next,
    List.length next = S a -> trails width height next ->
    let body := fold_left (extend width height) (seq (S a) m) next in
    List.length body = (S a + m)%nat /\ trails width height body /\
    body !! 0%nat = next !! 0%nat.
Proof.
  induction m as [|m IH]; intros a next Hlen Htr; cbn [seq fold_left].
  - cbn zeta. split; [lia|]. split; [exact Htr | reflexivity].
  - destruct (extend_grows next a Hlen Htr) as (Hlen' & Htr' & Hhd).
    destruct (IH (S a) _ Hlen' Htr') as (Hl & Ht & Hh).
    cbn zeta. split; [lia|]. split; [exact Ht|].
    now rewrite Hh.
Qed.
End InitialBody.

(** C6.  For a segment count [n >= 1], the tick that finds no body stores
    the keys of [initialBody]; these keys decode back to its cells; the body
    has exactly [n] cells, its cell at index 0 is the head, and each further
    cell is [nextCoords] in direction [Left] (one [rectSize] to the left,
    wrapped) of the cell before it. *)
Theorem initialBody_spec (width height : Z) (n : nat) (s : State) :
  (1 <= n)%nat -> prevSquares s = None -> nextSquares s = None ->
  let body := initialBody width height n in
  nextSquares (store (gameLoop width height n s)) = Some (List.map toId body) /\
  List.map (fun id => toCoord (Some id)) (List.map toId body)
    = List.map Some body /\
  List.length body = n /\
  body !! 0%nat = Some (head width height) /\
  forall i c, (S i < n)%nat -> body !! i = Some c ->
              body !! S i = Some (nextCoords width height (Left, Some c)).
Proof.
  intros Hn Hprev Hnext body. split; [|split; [apply keys_decode|]].
  - unfold gameLoop. rewrite Hprev, Hnext. cbn [store].
    unfold rescheduleGameLoop. destruct (playing _); reflexivity.
  - subst body. unfold initialBody.
    destruct n as [|m]; [lia|]. cbn [seq fold_left]. cbn [extend].
    destruct (fold_extend_grows width height m 0 [head width height])
      as (Hl & Ht & Hh).
    + reflexivity.
    + intros i c Hi. cbn [List.length] in Hi. lia.
    + cbn zeta in Hl, Ht, Hh. split; [exact Hl|]. split; [exact Hh|].
      intros i c Hi Hc. apply Ht; [lia | exact Hc].
Qed.

Lemma initialBody_spec_witness :
  nextSquares (store (gameLoop 100 100 5 (initial 100 100)))
  = Some ["50,50"; "39,50"; "28,50"; "17,50"; "6,50"]%string.
Proof.
  destruct (initialBody_spec 100 100 5 (initial 100 100)) as (H & _).
  - lia.
  - reflexivity.
  - reflexivity.
  - rewrite H. vm_compute. reflexivity.
Defined.

(** C10.  A tick that finds no body (neither [prevSquares] nor
    [nextSquares]) completes normally and leaves the queue of instructions
    exactly as it was, same instructions in the same order: it only stores
    the initial body (and schedules the next tick). *)
Theorem gameLoop_initializing_keeps_queue
    (width height : Z) (segments : nat) (s : State) :
  prevSquares s = None -> nextSquares s = None ->
  exists s',
    gameLoop width height segments s = Normal s' /\
    instructions s' = instructions s /\
    prevSquares s' = None /\
    nextSquares s' = Some (List.map toId (initialBody width height segments)).
Proof.
  intros Hprev Hnext. unfold gameLoop. rewrite Hprev, Hnext.
  eexists. split; [reflexivity|].
  unfold rescheduleGameLoop.
  destruct (playing _); cbn; auto.
Qed.

Lemma gameLoop_initializing_keeps_queue_witness :
  exists s',
    handleKeyEvents 100 100 5 "Enter"
      (store (handleKeyEvents 100 100 5 "ArrowUp" (initial 100 100))) = Normal s' /\
    instructions s' =
      [MkInstruction 0 Right (Some (50, 50)); MkInstruction 1 Up None].
Proof.
  destruct (gameLoop_initializing_keeps_queue 100 100 5
              (draw (set_playing true
                 (store (handleKeyEvents 100 100 5 "ArrowUp" (initial 100 100))))))
    as (s' & Hrun & Hq & _).
  - reflexivity.
  - reflexivity.
  - exists s'. split; [exact Hrun | rewrite Hq; reflexivity].
Defined.

(** ** Stopping *)

(** Escape clears [playing] and nothing else: no pending callback is
    cancelled by the key handler. *)
Lemma escape_cancels_nothing width height segments s :
  handleKeyEvents width height segments "Escape" s = Normal (set_playing false s).
Proof. reflexivity. Qed.

(** A tick that finds a body recomputes [nextSquares] whatever [playing]
    says. *)
Lemma gameLoop_moves_regardless width height segments s body :
  prevSquares s = Some body ->
  exists next,
    nextSquares (store (gameLoop width height segments s)) = Some next /\
    next = snd (fst (moveSegments width height (instructions s) (Some body)
                       (seq 0 segments) ∅ [])).
Proof.
  intros Hprev. unfold gameLoop. rewrite Hprev.
  destruct (moveSegments _ _ _ _ _ _ _) as [[applied next] finished].
  exists next. split; [|reflexivity].
  destruct finished; cbn [store]; [|reflexivity].
  unfold rescheduleGameLoop. destruct (playing _); reflexivity.
Qed.

(** C7, the code at a failing input.  On a 100 by 100 canvas: Enter, one
    frame, Escape.  Escape only clears [playing]; the tick scheduled before
    it (timeout 0) and the frame (frame 1) are still pending.  When the tick
    fires it moves the whole body one cell to the right before it looks at
    [playing]; the frame then makes that body the current one.  Only after
    these two runs is nothing pending any more. *)
Theorem stop_leaves_tick_pending :
  let body := ["50,50"; "39,50"; "28,50"; "17,50"; "6,50"]%string in
  let moved := ["61,50"; "50,50"; "39,50"; "28,50"; "17,50"]%string in
  exists stopped after_tick after_frame,
    run 100 100 5 [KeyDown "Enter"; FrameFires 0; KeyDown "Escape"]
      (initial 100 100) = Some stopped /\
    playing stopped = false /\
    prevSquares stopped = Some body /\ nextSquares stopped = None /\
    timeouts stopped = [0%nat] /\ frames stopped = [1%nat] /\
    dispatch 100 100 5 (TimeoutFires 0) stopped = Some (Normal after_tick) /\
    nextSquares after_tick = Some moved /\
    dispatch 100 100 5 (FrameFires 1) after_tick = Some (Normal after_frame) /\
    prevSquares after_frame = Some moved /\
    timeouts after_frame = [] /\ frames after_frame = [].
Proof.
  cbv zeta. do 3 eexists.
  split; [vm_compute; reflexivity|].
  repeat (split; [vm_compute; reflexivity|]).
  vm_compute; reflexivity.
Qed.

(** ** Turns issued before the body exists *)

(** What the handler does with an arrow key while no body exists: it
    completes normally and appends one instruction with the key's direction
    and no cell, against the type [Instruction] and the non-null assertion
    on the head key. *)
Lemma turn_before_body_is_queued
    (width height : Z) (segments : nat) (s : State) (key : string) (d : Direction) :
  prevSquares s = None -> nextSquares s = None -> arrow key = Some d ->
  handleKeyEvents width height segments key s
  = Normal (push_instruction d None s).
Proof.
  intros Hprev Hnext. unfold arrow.
  destruct (String.eqb_spec key "ArrowUp") as [->|_];
    [|destruct (String.eqb_spec key "ArrowRight") as [->|_];
      [|destruct (String.eqb_spec key "ArrowDown") as [->|_];
        [|destruct (String.eqb_spec key "ArrowLeft") as [->|_]]]];
    intros [= <-];
    unfold handleKeyEvents; rewrite Hnext, Hprev; reflexivity.
Qed.

Lemma turn_before_body_is_queued_witness :
  handleKeyEvents 100 100 5 "ArrowUp" (initial 100 100)
  = Normal (push_instruction Up None (initial 100 100)).
Proof.
  apply turn_before_body_is_queued; reflexivity.
Defined.

(** C8, the code at a failing input.  On a 100 by 100 canvas, before Enter
    no body exists, yet ArrowUp is not ignored: it adds an instruction
    without a cell to the queue.  After two such keys, Enter and two ticks
    with their frames, the second tick ends in a [TypeError]: the first prune
    deleted one of the two instructions and stepped over the other, whose
    missing cell [passed] then tries to destructure. *)
Theorem turn_before_body_breaks_tick :
  prevSquares (initial 100 100) = None /\
  nextSquares (initial 100 100) = None /\
  instructions (store (handleKeyEvents 100 100 5 "ArrowUp" (initial 100 100)))
  = [MkInstruction 0 Right (Some (50, 50)); MkInstruction 1 Up None] /\
  instructions (store (handleKeyEvents 100 100 5 "ArrowUp" (initial 100 100)))
  <> instructions (initial 100 100) /\
  exists s s',
    run 100 100 5
      [KeyDown "ArrowUp"; KeyDown "ArrowLeft"; KeyDown "Enter"; FrameFires 0;
       TimeoutFires 0; FrameFires 1] (initial 100 100) = Some s /\
    dispatch 100 100 5 (TimeoutFires 1) s = Some (TypeError s').
Proof.
  repeat (split; [vm_compute; (reflexivity || discriminate)|]).
  do 2 eexists. split; vm_compute; reflexivity.
Qed.

(** * Further properties of the code *)

(** ** Keys *)

(** X1.  A key decodes to the cell it was made from, and two different cells
    never share a key. *)
Theorem toId_lossless (c c' : Coord) :
  toCoord (Some (toId c)) = Some c /\ (toId c = toId c' -> c = c').
Proof.
  split; [apply toCoord_toId|].
  intros Heq. pose proof (toCoord_toId c) as Hc.
  rewrite Heq, toCoord_toId in Hc. congruence.
Qed.

Lemma toId_inj c c' : toId c = toId c' -> c = c'.
Proof.
  intros Heq. pose proof (toCoord_toId c) as Hc.
  rewrite Heq, toCoord_toId in Hc. congruence.
Qed.

Lemma includes_toId (cells : list Coord) (c : Coord) :
  includes (List.map toId cells) (toId c) = bool_decide (c ∈ cells).
Proof.
  unfold includes. induction cells as [|c0 cells IH]; cbn [List.map existsb].
  - symmetry. apply bool_decide_eq_false_2. intros H. inversion H.
  - rewrite IH. destruct (String.eqb_spec (toId c) (toId c0)) as [Heq|Hne];
      cbn [orb].
    + apply toId_inj in Heq. subst c0. symmetry.
      apply bool_decide_eq_true_2. left.
    + apply bool_decide_ext. rewrite elem_of_cons. split; [tauto|].
      intros [->|H]; [now contradict Hne | exact H].
Qed.

(** ** Wrapping once is enough *)

Lemma wrap1_room edge stride v :
  1 <= stride <= edge -> 0 <= wrap1 edge stride v <= edge - stride.
Proof.
  intros Hs. unfold wrap1.
  destruct (Z.gtb_spec v (edge - stride)); [lia|].
  destruct (Z.ltb_spec v 0); lia.
Qed.

Lemma constrainToCanvas_in_canvas width height c :
  0 < width -> 0 < height ->
  in_canvas width height (constrainToCanvas width height c).
Proof.
  intros Hw Hh. destruct c as [x y].
  destruct (rectSize_bounds width height Hw Hh) as [Hsw Hsh].
  rewrite constrainToCanvas_wrap1. unfold in_canvas. cbn [fst snd].
  split; apply wrap1_room; lia.
Qed.

(** X2.  On a canvas of positive size [constrainToCanvas] is idempotent: a
    wrapped cell is not moved by wrapping it again. *)
Theorem constrainToCanvas_idempotent (width height : Z) (c : Coord) :
  0 < width -> 0 < height ->
  constrainToCanvas width height (constrainToCanvas width height c)
  = constrainToCanvas width height c.
Proof.
  intros Hw Hh.
  destruct (constrainToCanvas_in_canvas width height c Hw Hh) as [Hx Hy].
  destruct (constrainToCanvas width height c) as [x y]. cbn [fst snd] in *.
  rewrite constrainToCanvas_wrap1. now rewrite !wrap1_id.
Qed.

Lemma constrainToCanvas_idempotent_witness :
  constrainToCanvas 100 100 (constrainToCanvas 100 100 (-11, 95))
  = constrainToCanvas 100 100 (-11, 95).
Proof. apply constrainToCanvas_idempotent; lia. Defined.

(** ** What a frame paints *)

Lemma includes_elem_of (squares : list ID) (square : ID) :
  includes squares square = true <-> square ∈ squares.
Proof.
  unfold includes. induction squares as [|k squares IH]; cbn [existsb].
  - split; [discriminate | intros H; inversion H].
  - rewrite orb_true_iff, IH, elem_of_cons.
    destruct (String.eqb_spec square k); intuition congruence.
Qed.

Section Painting.
Variables width height : Z.

Lemma clearRemovedSquares_cells (next prev : list Coord) :
  flat_map (clearRemovedSquares width height (List.map toId next))
    (List.map toId prev)
  = List.map (clearCell width height) (filter (fun c => c ∉ next) prev).
Proof.
  induction prev as [|c prev IH]; [reflexivity|].
  cbn [List.map flat_map]. rewrite IH. unfold clearRemovedSquares at 1.
  rewrite includes_toId, toCoord_toId.
  destruct (bool_decide_reflect (c ∈ next)) as [Hin|Hout].
  - rewrite filter_cons_False by tauto. reflexivity.
  - rewrite filter_cons_True by exact Hout. reflexivity.
Qed.

Lemma drawAddedSquares_cells (prev next : list Coord) :
  flat_map (drawAddedSquares width height (Some (List.map toId prev)))
    (List.map toId next)
  = List.map (fillCell width height) (filter (fun c => c ∉ prev) next).
Proof.
  induction next as [|c next IH]; [reflexivity|].
  cbn [List.map flat_map]. rewrite IH. unfold drawAddedSquares at 1.
  rewrite includes_toId, toCoord_toId.
  destruct (bool_decide_reflect (c ∈ prev)) as [Hin|Hout].
  - rewrite filter_cons_False by tauto. reflexivity.
  - rewrite filter_cons_True by exact Hout. reflexivity.
Qed.

Lemma drawAddedSquares_first (next : list Coord) :
  flat_map (drawAddedSquares width height None) (List.map toId next)
  = List.map (fillCell width height) next.
Proof.
  induction next as [|c next IH]; [reflexivity|].
  cbn [List.map flat_map]. rewrite IH. unfold drawAddedSquares at 1.
  now rewrite toCoord_toId.
Qed.
End Painting.

(** X3.  When the shown body and the pending body hold the keys of the cells
    [prev] and [next], a frame clears exactly the cells of [prev] that are
    not in [next], in the order of [prev], and then fills exactly the cells
    of [next] that are not in [prev], in the order of [next]; each rectangle
    is [rect.size] wide and high. *)
Theorem paint_is_the_difference
    (width height : Z) (s : State) (prev next : list Coord) :
  prevSquares s = Some (List.map toId prev) ->
  nextSquares s = Some (List.map toId next) ->
  paint width height s
  = List.map (clearCell width height) (filter (fun c => c ∉ next) prev)
    ++ List.map (fillCell width height) (filter (fun c => c ∉ prev) next).
Proof.
  intros Hprev Hnext. unfold paint. rewrite Hnext, Hprev.
  now rewrite clearRemovedSquares_cells, drawAddedSquares_cells.
Qed.

Lemma paint_is_the_difference_witness :
  paint 100 100
    (MkState true None None [] (Some (List.map toId [(50, 50); (39, 50)]))
       (Some (List.map toId [(61, 50); (50, 50)])) 1 [] 0 [] 0)
  = [clearRect (Some (39, 50)) 10 10; fillRect (Some (61, 50)) 10 10].
Proof.
  rewrite (paint_is_the_difference 100 100 _ [(50, 50); (39, 50)]
             [(61, 50); (50, 50)]) by reflexivity.
  vm_compute. reflexivity.
Defined.

(** X4.  The first frame after the initial body was made (no body shown
    yet) clears nothing and fills every cell of the pending body, one call
    per key, repeated keys included. *)
Theorem paint_first_frame (width height : Z) (s : State) (next : list Coord) :
  prevSquares s = None ->
  nextSquares s = Some (List.map toId next) ->
  paint width height s
  = List.map (fillCell width height) next.
Proof.
  intros Hprev Hnext. unfold paint. rewrite Hnext, Hprev.
  now rewrite drawAddedSquares_first.
Qed.

Lemma paint_first_frame_witness :
  paint 100 100 (store (gameLoop 100 100 2 (initial 100 100)))
  = [fillRect (Some (50, 50)) 10 10; fillRect (Some (39, 50)) 10 10].
Proof.
  rewrite (paint_first_frame 100 100 _ [(50, 50); (39, 50)]) by reflexivity.
  reflexivity.
Defined.

(** X5.  A frame whose pending body has the same keys as the shown body
    (in any order and multiplicity) makes no canvas call. *)
Theorem paint_same_keys (width height : Z) (s : State) (prev next : list ID) :
  prevSquares s = Some prev -> nextSquares s = Some next ->
  (forall k, k ∈ prev <-> k ∈ next) ->
  paint width height s = [].
Proof.
  intros Hprev Hnext Hsame. unfold paint. rewrite Hnext, Hprev.
  assert (Hclear : forall l, (forall k, k ∈ l -> k ∈ next) ->
            flat_map (clearRemovedSquares width height next) l = []).
  { induction l as [|k l IH]; intros Hl; [reflexivity|].
    cbn [flat_map]. rewrite IH by (intros; apply Hl; now right).
    unfold clearRemovedSquares.
    rewrite (proj2 (includes_elem_of next k)) by (apply Hl; left).
    reflexivity. }
  assert (Hfill : forall l, (forall k, k ∈ l -> k ∈ prev) ->
            flat_map (drawAddedSquares width height (Some prev)) l = []).
  { induction l as [|k l IH]; intros Hl; [reflexivity|].
    cbn [flat_map]. rewrite IH by (intros; apply Hl; now right).
    unfold drawAddedSquares.
    rewrite (proj2 (includes_elem_of prev k)) by (apply Hl; left).
    reflexivity. }
  rewrite Hclear by (intros; now apply Hsame).
  rewrite Hfill by (intros; now apply Hsame).
  reflexivity.
Qed.

Lemma paint_same_keys_witness :
  paint 100 100
    (MkState true None None [] (Some ["50,50"; "39,50"]%string)
       (Some ["39,50"; "50,50"; "39,50"]%string) 1 [] 0 [] 0) = [].
Proof.
  apply (paint_same_keys 100 100 _ ["50,50"; "39,50"]%string
           ["39,50"; "50,50"; "39,50"]%string); [reflexivity..|].
  intros k. rewrite !elem_of_cons, !elem_of_nil. tauto.
Defined.

(** X6.  [draw] uses up the pending body: right after a frame nothing is
    pending, so a further frame without a tick in between paints nothing and
    keeps the shown body. *)
Theorem draw_uses_up_pending (width height : Z) (s : State) :
  nextSquares (draw s) = None /\
  paint width height (draw s) = [] /\
  prevSquares (draw (draw s)) = prevSquares (draw s).
Proof.
  assert (Hnone : forall t, nextSquares (draw t) = None).
  { intros t. unfold draw. destruct (nextSquares t) eqn:Hn; cbn;
      destruct (playing t); cbn; auto. }
  split; [apply Hnone|]. split.
  - unfold paint. now rewrite Hnone.
  - generalize (Hnone s). generalize (draw s). intros t Ht.
    unfold draw. rewrite Ht. destruct (playing t); reflexivity.
Qed.

(** ** What pruning removes *)

Lemma list_ind_pairs {A} (P : list A -> Prop) :
  P [] -> (forall x, P [x]) ->
  (forall x y l, P l -> P (y :: l) -> P (x :: y :: l)) ->
  forall l, P l.
Proof.
  intros Hnil Hone Hstep l.
  enough (H : P l /\ forall x, P (x :: l)) by apply H.
  induction l as [|y l [IHl IHy]]; split; auto.
Qed.

Lemma removeUnused_from_beyond applied fuel :
  forall its (i : nat), (List.length its <= i)%nat ->
    removeUnused_from applied its i fuel = its.
Proof.
  induction fuel as [|fuel IH]; intros its i Hi; [reflexivity|].
  cbn [removeUnused_from].
  rewrite (proj2 (lookup_ge_None its i)) by exact Hi.
  apply IH. lia.
Qed.

Lemma removeUnused_from_tail applied fuel :
  forall l pre, pre <> [] -> (List.length l <= fuel)%nat ->
    removeUnused_from applied (pre ++ l) (List.length pre) fuel
    = pre ++ prune_tail applied l.
Proof.
  induction fuel as [|fuel IH]; intros l pre Hpre Hfuel.
  - destruct l; [|cbn in Hfuel; lia]. reflexivity.
  - destruct l as [|t rest].
    + rewrite removeUnused_from_beyond by (rewrite length_app; cbn; lia).
      reflexivity.
    + cbn [List.length] in Hfuel. cbn [removeUnused_from prune_tail].
      rewrite lookup_app_r by lia. rewrite Nat.sub_diag. cbn [lookup list_lookup].
      destruct (decide (iref t ∈ applied)) as [Hin|Hout].
      * replace (pre ++ t :: rest) with ((pre ++ [t]) ++ rest)
          by (now rewrite <- app_assoc).
        replace (S (List.length pre)) with (List.length (pre ++ [t]))
          by (rewrite length_app; cbn; lia).
        rewrite IH by (try lia; now destruct pre).
        now rewrite <- app_assoc.
      * destruct (decide (List.length pre = 0%nat)) as [H0|_];
          [destruct pre; [contradiction | discriminate]|].
        rewrite delete_middle.
        destruct rest as [|u rest'].
        -- rewrite removeUnused_from_beyond by (rewrite length_app; cbn; lia).
           reflexivity.
        -- cbn [List.length] in Hfuel.
           replace (pre ++ u :: rest') with ((pre ++ [u]) ++ rest')
             by (now rewrite <- app_assoc).
           replace (S (List.length pre)) with (List.length (pre ++ [u]))
             by (rewrite length_app; cbn; lia).
           rewrite IH by (try lia; now destruct pre).
           now rewrite <- app_assoc.
Qed.

Lemma removeUnusedInstructions_cons applied t l :
  removeUnusedInstructions applied (t :: l) = t :: prune_tail applied l.
Proof.
  unfold removeUnusedInstructions. cbn [List.length removeUnused_from].
  cbn [lookup list_lookup].
  assert (Hgo : removeUnused_from applied (t :: l) 1 (List.length l)
                = t :: prune_tail applied l).
  { apply (removeUnused_from_tail applied (List.length l) l [t]);
      [discriminate | lia]. }
  destruct (decide (iref t ∈ applied)); [exact Hgo|].
  destruct (decide (0%nat = 0%nat)); [exact Hgo | contradiction].
Qed.

(** X7.  What the [forEach] with [splice] computes, as one pass over the
    queue: the instruction at index 0 is kept; behind it an applied
    instruction is kept, and an instruction that was not applied is removed
    while the instruction right after it is kept without being examined.
    An empty queue stays empty. *)
Theorem removeUnusedInstructions_one_pass
    (applied : gset nat) (t : Instruction) (l : list Instruction) :
  removeUnusedInstructions applied [] = [] /\
  removeUnusedInstructions applied (t :: l) = t :: prune_tail applied l.
Proof. split; [reflexivity | apply removeUnusedInstructions_cons]. Qed.

Lemma prune_tail_sublist applied l : sublist (prune_tail applied l) l.
Proof.
  induction l as [| x | x y l IHl IHy] using list_ind_pairs.
  - constructor.
  - cbn. destruct (decide _); [reflexivity | apply sublist_nil_l].
  - change (prune_tail applied (x :: y :: l))
      with (if decide (iref x ∈ applied)
            then x :: prune_tail applied (y :: l)
            else y :: prune_tail applied l).
    destruct (decide _).
    + now apply sublist_skip.
    + apply sublist_cons. now apply sublist_skip.
Qed.

Lemma prune_tail_keeps_applied applied l t :
  t ∈ l -> iref t ∈ applied -> t ∈ prune_tail applied l.
Proof.
  revert t. induction l as [| x | x y l IHl IHy] using list_ind_pairs;
    intros t Ht Happ.
  - inversion Ht.
  - apply elem_of_cons in Ht as [->|Ht]; [|inversion Ht]. cbn.
    rewrite decide_True by exact Happ. left.
  - change (prune_tail applied (x :: y :: l))
      with (if decide (iref x ∈ applied)
            then x :: prune_tail applied (y :: l)
            else y :: prune_tail applied l).
    apply elem_of_cons in Ht as [->|Ht].
    + rewrite decide_True by exact Happ. left.
    + destruct (decide _).
      * right. now apply IHy.
      * apply elem_of_cons in Ht as [->|Ht]; [left | right; now apply IHl].
Qed.

(** X8.  Pruning only removes: what is left is a subsequence of the queue,
    in the same order, and every instruction that was applied during the
    tick is still queued. *)
Theorem removeUnusedInstructions_keeps_applied
    (applied : gset nat) (its : list Instruction) :
  sublist (removeUnusedInstructions applied its) its /\
  forall t, t ∈ its -> iref t ∈ applied ->
            t ∈ removeUnusedInstructions applied its.
Proof.
  destruct its as [|t0 l]; [split; [reflexivity | intros t Ht; inversion Ht]|].
  rewrite removeUnusedInstructions_cons. split.
  - apply sublist_skip, prune_tail_sublist.
  - intros t Ht Happ. apply elem_of_cons in Ht as [->|Ht]; [left | right].
    now apply prune_tail_keeps_applied.
Qed.

Lemma prune_tail_lonely applied l :
  lonely applied l ->
  prune_tail applied l = filter (fun t => iref t ∈ applied) l.
Proof.
  induction l as [| x | x y l IHl IHy] using list_ind_pairs; intros Hl.
  - reflexivity.
  - cbn [prune_tail]. destruct (decide (iref x ∈ applied)).
    + now rewrite filter_cons_True.
    + now rewrite filter_cons_False.
  - change (prune_tail applied (x :: y :: l))
      with (if decide (iref x ∈ applied)
            then x :: prune_tail applied (y :: l)
            else y :: prune_tail applied l).
    destruct Hl as [Hx Hrest].
    destruct (decide (iref x ∈ applied)) as [Hin|Hout].
    + rewrite filter_cons_True by exact Hin. now rewrite IHy.
    + rewrite filter_cons_False by exact Hout.
      rewrite filter_cons_True by (now apply Hx).
      rewrite IHl; [reflexivity|]. apply Hrest.
Qed.

(** X9.  When no two instructions behind index 0 that were not applied stand
    next to each other, pruning does remove every one of them: what is left
    is index 0 followed by exactly the applied instructions. *)
Theorem removeUnusedInstructions_when_lonely
    (applied : gset nat) (t : Instruction) (l : list Instruction) :
  lonely applied l ->
  removeUnusedInstructions applied (t :: l)
  = t :: filter (fun u => iref u ∈ applied) l.
Proof.
  intros Hl. rewrite removeUnusedInstructions_cons.
  now rewrite prune_tail_lonely.
Qed.

Lemma removeUnusedInstructions_when_lonely_witness :
  removeUnusedInstructions {[0%nat; 2%nat]}
    [MkInstruction 0 Right (Some (50, 50)); MkInstruction 1 Up (Some (61, 50));
     MkInstruction 2 Left (Some (61, 61)); MkInstruction 3 Down None]
  = [MkInstruction 0 Right (Some (50, 50)); MkInstruction 2 Left (Some (61, 61))].
Proof.
  rewrite removeUnusedInstructions_when_lonely.
  - vm_compute. reflexivity.
  - cbn [lonely iref].
    split; [intros _; set_solver|].
    split; [intros H; exfalso; apply H; set_solver|].
    split; [intros _; exact I | exact I].
Defined.

(** ** When the selection faults *)

Lemma passed_None segment t : passed segment t = None <-> icoord t = None.
Proof.
  unfold passed. destruct segment as [[x y]|]; destruct (icoord t) as [[ix iy]|];
    split; congruence.
Qed.

Lemma find_not_passed_None segment its :
  find_not_passed segment its = None <->
  exists i t, its !! i = Some t /\ icoord t = None /\
    forall j u, (j < i)%nat -> its !! j = Some u -> passed segment u = Some true.
Proof.
  induction its as [|t its IH]; cbn [find_not_passed].
  - split; [discriminate | intros (i & t & Hi & _); inversion Hi].
  - destruct (passed segment t) as [[|]|] eqn:Hp.
    + rewrite IH. split.
      * intros (i & u & Hi & Hu & Hbefore). exists (S i), u.
        repeat split; auto.
        intros [|j] v Hj Hv; cbn in Hv; [congruence|].
        apply (Hbefore j); [lia | exact Hv].
      * intros ([|i] & u & Hi & Hu & Hbefore); cbn in Hi.
        -- injection Hi as <-. apply (proj2 (passed_None segment _)) in Hu. congruence.
        -- exists i, u. repeat split; auto.
           intros j v Hj Hv. apply (Hbefore (S j)); [lia | exact Hv].
    + split; [discriminate|].
      intros ([|i] & u & Hi & Hu & Hbefore); cbn in Hi.
      * injection Hi as <-. apply (proj2 (passed_None segment _)) in Hu. congruence.
      * specialize (Hbefore 0%nat t ltac:(lia) eq_refl). congruence.
    + split; [intros _ | reflexivity].
      exists 0%nat, t. split; [reflexivity|]. split; [now apply (passed_None segment)|].
      intros j u Hj. lia.
Qed.

(** X10.  The selection faults in exactly two situations: the queue is
    empty, or some instruction has no cell and the segment has passed every
    instruction queued before it.  (A missing segment is read as the cell
    (0, 0).) *)
Theorem selectInstruction_faults
    (segment : option Coord) (its : list Instruction) :
  selectInstruction segment its = None <->
  its = [] \/
  exists i t, its !! i = Some t /\ icoord t = None /\
    forall j u, (j < i)%nat -> its !! j = Some u -> passed segment u = Some true.
Proof.
  unfold selectInstruction.
  destruct (find_not_passed segment its) as [[t|]|] eqn:Hf.
  - split; [discriminate|]. intros [->|H]; [discriminate|].
    apply find_not_passed_None in H. congruence.
  - destruct its as [|t its]; cbn.
    + split; auto.
    + split; [discriminate|]. intros [H|H]; [discriminate|].
      apply find_not_passed_None in H. congruence.
  - split; [intros _ | reflexivity]. right. now apply find_not_passed_None.
Qed.

(** ** One tick *)

Section Tick.
Variables width height : Z.
Variable segments : nat.

Lemma moveSegments_length its prev todo :
  forall applied next applied' next' finished,
    moveSegments width height its prev todo applied next
    = (applied', next', finished) ->
    if finished
    then List.length next' = (List.length next + List.length todo)%nat
    else (List.length next' < List.length next + List.length todo)%nat.
Proof.
  induction todo as [|i todo IH]; intros applied next applied' next' finished;
    cbn [moveSegments].
  - intros [= <- <- <-]. cbn. lia.
  - destruct (selectInstruction _ its) as [t|].
    + intros H. apply IH in H. rewrite length_app in H. cbn [List.length] in *.
      destruct finished; lia.
    + intros [= <- <- <-]. cbn. lia.
Qed.

Lemma initialBody_length :
  List.length (initialBody width height segments) = Nat.max 1 segments.
Proof.
  unfold initialBody. destruct segments as [|m]; [reflexivity|].
  cbn [seq fold_left extend].
  destruct (fold_extend_grows width height m 0 [head width height])
    as (Hl & _); [reflexivity | |cbn zeta in Hl; lia].
  intros i c Hi. cbn [List.length] in Hi. lia.
Qed.

Lemma rescheduleGameLoop_squares s :
  prevSquares (rescheduleGameLoop s) = prevSquares s /\
  nextSquares (rescheduleGameLoop s) = nextSquares s /\
  playing (rescheduleGameLoop s) = playing s /\
  frames (rescheduleGameLoop s) = frames s /\
  animationId (rescheduleGameLoop s) = animationId s /\
  nextRef (rescheduleGameLoop s) = nextRef s.
Proof.
  unfold rescheduleGameLoop. destruct (playing s) eqn:Hp; cbn;
    repeat split; auto.
Qed.

(** The two branches of [gameLoop], spelled out. *)
Lemma gameLoop_cases s :
  (prevSquares s = None /\ nextSquares s = None /\
   gameLoop width height segments s
   = Normal (rescheduleGameLoop
               (set_nextSquares
                  (Some (List.map toId (initialBody width height segments))) s)))
  \/
  (~ (prevSquares s = None /\ nextSquares s = None) /\
   exists applied next finished,
     moveSegments width height (instructions s) (prevSquares s)
       (seq 0 segments) ∅ [] = (applied, next, finished) /\
     gameLoop width height segments s
     = if finished
       then Normal (rescheduleGameLoop
                      (set_instructions
                         (removeUnusedInstructions applied (instructions s))
                         (set_nextSquares (Some next) s)))
       else TypeError (set_nextSquares (Some next) s)).
Proof.
  unfold gameLoop.
  destruct (moveSegments width height (instructions s) (prevSquares s)
              (seq 0 segments) ∅ []) as [[applied next] finished] eqn:Hm.
  destruct (prevSquares s) as [p|] eqn:Hp; [|destruct (nextSquares s) as [n|] eqn:Hn].
  - right. split; [intros [H _]; discriminate|].
    exists applied, next, finished. split; [reflexivity|].
    destruct (nextSquares s); reflexivity.
  - right. split; [intros [_ H]; discriminate|].
    exists applied, next, finished. split; reflexivity.
  - left. auto.
Qed.

End Tick.

(** X11.  A tick that completes stores a body of exactly [segments] keys,
    however many keys the shown body had; the tick that makes the initial
    body stores [segments] keys as well, except that it stores the head alone
    when [segments] is 0. *)
Theorem gameLoop_body_length
    (width height : Z) (segments : nat) (s s' : State) :
  gameLoop width height segments s = Normal s' ->
  exists next,
    nextSquares s' = Some next /\
    List.length next =
      match prevSquares s, nextSquares s with
      | None, None => Nat.max 1 segments
      | _, _ => segments
      end.
Proof.
  intros Hrun.
  destruct (gameLoop_cases width height segments s)
    as [(Hp & Hn & Hg) | (Hbody & applied & next & finished & Hm & Hg)];
    rewrite Hg in Hrun.
  - injection Hrun as <-. rewrite Hp, Hn.
    eexists. split.
    + rewrite (proj1 (proj2 (rescheduleGameLoop_squares _))). reflexivity.
    + now rewrite length_map, initialBody_length.
  - destruct finished; [|discriminate]. injection Hrun as <-.
    exists next. split.
    + rewrite (proj1 (proj2 (rescheduleGameLoop_squares _))). reflexivity.
    + apply moveSegments_length in Hm. cbn [List.length] in Hm.
      rewrite length_seq in Hm.
      destruct (prevSquares s), (nextSquares s); try exact Hm. tauto.
Qed.

Lemma gameLoop_body_length_witness :
  exists next,
    nextSquares (store (gameLoop 100 100 3
                          (MkState true None None [firstInstruction 100 100]
                             (Some ["50,50"%string]) None 1 [] 0 [] 0)))
    = Some next /\ List.length next = 3%nat.
Proof.
  destruct (gameLoop_body_length 100 100 3
              (MkState true None None [firstInstruction 100 100]
                 (Some ["50,50"%string]) None 1 [] 0 [] 0) _ eq_refl)
    as (next & Hn & Hl).
  exists next. split; [exact Hn | exact Hl].
Defined.

(** X12.  A tick that ends in a [TypeError] has already replaced the pending
    body by the part computed so far, which is shorter than [segments]; it
    leaves the queue unpruned, schedules no further tick and cancels
    nothing. *)
Theorem gameLoop_fault_state
    (width height : Z) (segments : nat) (s s' : State) :
  gameLoop width height segments s = TypeError s' ->
  (exists next, nextSquares s' = Some next /\
                (List.length next < segments)%nat) /\
  instructions s' = instructions s /\
  timeouts s' = timeouts s /\ gameLoopId s' = gameLoopId s /\
  prevSquares s' = prevSquares s /\ playing s' = playing s.
Proof.
  intros Hrun.
  destruct (gameLoop_cases width height segments s)
    as [(Hp & Hn & Hg) | (Hbody & applied & next & finished & Hm & Hg)];
    rewrite Hg in Hrun; [discriminate|].
  destruct finished; [discriminate|]. injection Hrun as <-.
  apply moveSegments_length in Hm. cbn [List.length] in Hm.
  rewrite length_seq in Hm.
  split; [exists next; split; [reflexivity | exact Hm]|].
  cbn. repeat split; reflexivity.
Qed.

Lemma gameLoop_fault_state_witness :
  let s := MkState true None (Some 1%nat)
             [MkInstruction 0 Right (Some (50, 50)); MkInstruction 2 Left None]
             (Some ["61,50"; "50,50"; "39,50"]%string) None 3 [] 2 [] 0 in
  exists s', gameLoop 100 100 3 s = TypeError s' /\
             nextSquares s' = Some [] /\ instructions s' = instructions s.
Proof.
  cbv zeta. eexists. split; [vm_compute; reflexivity|].
  split; [reflexivity|].
  eapply (gameLoop_fault_state 100 100 3). vm_compute. reflexivity.
Defined.

(** X13.  A tick never touches the shown body ([prevSquares]), the
    [playing] flag, the pending frames or the instruction allocator: only
    [draw] replaces the shown body. *)
Theorem gameLoop_keeps_shown_body
    (width height : Z) (segments : nat) (s : State) :
  let s' := store (gameLoop width height segments s) in
  prevSquares s' = prevSquares s /\ playing s' = playing s /\
  frames s' = frames s /\ animationId s' = animationId s /\
  nextRef s' = nextRef s.
Proof.
  cbv zeta.
  destruct (gameLoop_cases width height segments s)
    as [(Hp & Hn & Hg) | (Hbody & applied & next & finished & Hm & Hg)];
    rewrite Hg; [|destruct finished]; cbn [store];
    try (destruct (rescheduleGameLoop_squares
                     (set_nextSquares
                        (Some (List.map toId (initialBody width height segments))) s))
           as (-> & _ & -> & -> & -> & ->));
    try (destruct (rescheduleGameLoop_squares
                     (set_instructions
                        (removeUnusedInstructions applied (instructions s))
                        (set_nextSquares (Some next) s)))
           as (-> & _ & -> & -> & -> & ->));
    cbn; repeat split; reflexivity.
Qed.

(** What a tick leaves as the pending body. *)
Lemma gameLoop_pending_body width height segments s :
  prevSquares (store (gameLoop width height segments s)) = prevSquares s /\
  (nextSquares (store (gameLoop width height segments s))
   = Some (List.map toId (initialBody width height segments)) \/
   exists applied next finished,
     moveSegments width height (instructions s) (prevSquares s)
       (seq 0 segments) ∅ [] = (applied, next, finished) /\
     nextSquares (store (gameLoop width height segments s)) = Some next).
Proof.
  destruct (gameLoop_cases width height segments s)
    as [(Hp & Hn & Hg) | (Hbody & applied & next & finished & Hm & Hg)];
    rewrite Hg.
  - cbn [store].
    destruct (rescheduleGameLoop_squares
                (set_nextSquares
                   (Some (List.map toId (initialBody width height segments))) s))
      as (-> & -> & _).
    split; [reflexivity | left; reflexivity].
  - split.
    + destruct finished; cbn [store]; [|reflexivity].
      now rewrite (proj1 (rescheduleGameLoop_squares _)).
    + right. exists applied, next, finished. split; [exact Hm|].
      destruct finished; cbn [store]; [|reflexivity].
      now rewrite (proj1 (proj2 (rescheduleGameLoop_squares _))).
Qed.

(** ** Bodies stay on the canvas *)

Section OnCanvas.
Variables width height : Z.
Variable segments : nat.
Hypothesis wide : 2 <= width.
Hypothesis high : 2 <= height.

Lemma head_in_canvas : in_canvas width height (head width height).
Proof.
  unfold in_canvas, head, rectSize, rect_size, rect_spacing, size, smaller.
  cbn [fst snd].
  pose proof (Z.div_mod (width + 1) 2 ltac:(lia)).
  pose proof (Z.mod_pos_bound (width + 1) 2 ltac:(lia)).
  pose proof (Z.div_mod (height + 1) 2 ltac:(lia)).
  pose proof (Z.mod_pos_bound (height + 1) 2 ltac:(lia)).
  pose proof (Z.div_mod (Z.min width height) 10 ltac:(lia)).
  pose proof (Z.mod_pos_bound (Z.min width height) 10 ltac:(lia)).
  lia.
Qed.

Lemma nextCoords_in_canvas it : in_canvas width height (nextCoords width height it).
Proof.
  destruct it as [d c]. unfold nextCoords.
  destruct (match c with Some c0 => c0 | None => head width height end) as [x y].
  destruct (Transforms d) as [tx ty].
  apply constrainToCanvas_in_canvas; lia.
Qed.

Lemma initialBody_in_canvas :
  Forall (in_canvas width height) (initialBody width height segments).
Proof.
  unfold initialBody.
  assert (H : forall idxs next, Forall (in_canvas width height) next ->
            Forall (in_canvas width height)
              (fold_left (extend width height) idxs next)).
  { induction idxs as [|i idxs IH]; intros next Hnext; [exact Hnext|].
    cbn [fold_left]. apply IH. unfold extend.
    destruct (match i with O => None | S j => next !! j end); [|exact Hnext].
    apply Forall_app. split; [exact Hnext|].
    constructor; [apply nextCoords_in_canvas | constructor]. }
  apply H. constructor; [apply head_in_canvas | constructor].
Qed.

Lemma moveSegments_on_canvas its prev todo :
  forall applied next applied' next' finished,
    moveSegments width height its prev todo applied next
    = (applied', next', finished) ->
    keys_on_canvas width height (Some next) ->
    keys_on_canvas width height (Some next').
Proof.
  induction todo as [|i todo IH]; intros applied next applied' next' finished;
    cbn [moveSegments].
  - now intros [= <- <- <-].
  - destruct (selectInstruction _ its) as [t|]; [|now intros [= <- <- <-]].
    intros Hm Hnext. eapply IH; [exact Hm|].
    cbn [keys_on_canvas] in *. apply Forall_app. split; [exact Hnext|].
    constructor; [|constructor].
    eexists. split; [reflexivity | apply nextCoords_in_canvas].
Qed.

Lemma gameLoop_on_canvas s :
  bodies_on_canvas width height s ->
  bodies_on_canvas width height (store (gameLoop width height segments s)).
Proof.
  intros [Hp Hn]. unfold bodies_on_canvas.
  destruct (gameLoop_pending_body width height segments s) as [-> Hnext].
  split; [exact Hp|].
  destruct Hnext as [-> | (applied & next & finished & Hm & ->)].
  - cbn [keys_on_canvas]. apply Forall_forall. intros k Hk.
    apply list_elem_of_In, in_map_iff in Hk as (c & <- & Hc).
    exists c. split; [reflexivity|].
    pose proof initialBody_in_canvas as Hall.
    rewrite Forall_forall in Hall. apply Hall. now apply list_elem_of_In.
  - eapply moveSegments_on_canvas; [exact Hm|]. constructor.
Qed.

Lemma draw_on_canvas s :
  bodies_on_canvas width height s -> bodies_on_canvas width height (draw s).
Proof.
  intros [Hp Hn]. unfold bodies_on_canvas, draw.
  destruct (nextSquares s) as [next|] eqn:Hnext; cbn;
    destruct (playing s); cbn; rewrite ?Hnext; auto.
Qed.

Lemma pushIf_squares b d c s :
  prevSquares (pushIf b d c s) = prevSquares s /\
  nextSquares (pushIf b d c s) = nextSquares s.
Proof. destruct b; cbn; auto. Qed.

Lemma handleKeyEvents_on_canvas key s :
  bodies_on_canvas width height s ->
  bodies_on_canvas width height (store (handleKeyEvents width height segments key s)).
Proof.
  intros H. unfold handleKeyEvents.
  destruct (String.eqb key "Enter" && negb (playing s)).
  - apply gameLoop_on_canvas, draw_on_canvas. exact H.
  - cbn [store].
    match goal with
    | |- bodies_on_canvas width height (if ?b then set_playing false ?t else ?t) =>
        assert (Ht : bodies_on_canvas width height t);
        [|destruct b; [exact Ht | exact Ht]]
    end.
    unfold bodies_on_canvas.
    repeat (rewrite (proj1 (pushIf_squares _ _ _ _)),
                    (proj2 (pushIf_squares _ _ _ _))).
    exact H.
Qed.

Lemma reachable_on_canvas s :
  reachable width height segments s -> bodies_on_canvas width height s.
Proof.
  induction 1 as [|s e c Hs IH Hstep]; [split; exact I|].
  destruct e as [key|id|id]; cbn [dispatch] in Hstep.
  - injection Hstep as <-. now apply handleKeyEvents_on_canvas.
  - destruct (existsb (Nat.eqb id) (timeouts s)); [|discriminate].
    injection Hstep as <-. apply gameLoop_on_canvas. exact IH.
  - destruct (existsb (Nat.eqb id) (frames s)); [|discriminate].
    injection Hstep as <-. cbn [store]. apply draw_on_canvas. exact IH.
Qed.
End OnCanvas.

(** X14.  On a canvas at least 2 pixels wide and high, whatever keys are
    pressed and whichever callbacks fire, every key of the shown body and of
    the pending body is the key of a cell whose coordinates lie between 0 and
    the extent minus [rectSize]: the snake is never drawn off the canvas. *)
Theorem bodies_stay_on_canvas
    (width height : Z) (segments : nat) (s : State) :
  2 <= width -> 2 <= height ->
  reachable width height segments s ->
  keys_on_canvas width height (prevSquares s) /\
  keys_on_canvas width height (nextSquares s).
Proof. intros Hw Hh Hs. now apply (reachable_on_canvas width height segments). Qed.

Lemma bodies_stay_on_canvas_witness :
  keys_on_canvas 100 100
    (nextSquares (store (handleKeyEvents 100 100 5 "Enter" (initial 100 100)))).
Proof.
  apply (bodies_stay_on_canvas 100 100 5); [lia | lia |].
  apply (reachable_step 100 100 5 (initial 100 100) (KeyDown "Enter"));
    [apply reachable_initial | reflexivity].
Defined.

(** ** Ticks without turns *)

Lemma selectInstruction_singleton segment t :
  anchored t -> selectInstruction segment [t] = Some t.
Proof.
  intros Ht. unfold selectInstruction. cbn [find_not_passed].
  destruct (passed segment t) as [[|]|] eqn:Hp; [reflexivity | reflexivity |].
  apply passed_None in Hp. destruct Ht as [c Hc]. congruence.
Qed.

Lemma lookup_map_middle {A B} (f : A -> B) (pre : list A) (x : A) (post : list A) :
  List.map f (pre ++ x :: post) !! List.length pre = Some (f x).
Proof.
  rewrite List.map_app. rewrite lookup_app_r by (rewrite length_map; lia).
  rewrite length_map, Nat.sub_diag. reflexivity.
Qed.

Section Straight.
Variables width height : Z.
Variable segments : nat.

Lemma moveSegments_straight t :
  anchored t ->
  forall cells pre applied next,
  exists applied',
    moveSegments width height [t] (Some (List.map toId (pre ++ cells)))
      (seq (List.length pre) (List.length cells)) applied next
    = (applied',
       next ++ List.map toId (List.map (step width height (idir t)) cells),
       true).
Proof.
  intros Ht. induction cells as [|c cells IH]; intros pre applied next.
  - exists applied. cbn. now rewrite app_nil_r.
  - cbn [List.length seq moveSegments].
    rewrite lookup_map_middle, toCoord_toId, selectInstruction_singleton
      by exact Ht.
    destruct (IH (pre ++ [c]) ({[iref t]} ∪ applied)
                (next ++ [toId (nextCoords width height (idir t, Some c))]))
      as (applied' & Hm).
    rewrite <- app_assoc, length_app in Hm. cbn [List.length app] in Hm.
    rewrite Nat.add_1_r in Hm. rewrite Hm.
    exists applied'. cbn [List.map]. now rewrite <- app_assoc.
Qed.

Lemma gameLoop_straight t cells s :
  instructions s = [t] -> anchored t ->
  prevSquares s = Some (List.map toId cells) ->
  List.length cells = segments ->
  gameLoop width height segments s
  = Normal (rescheduleGameLoop
              (set_instructions [t]
                 (set_nextSquares
                    (Some (List.map toId
                             (List.map (step width height (idir t)) cells)))
                    s))).
Proof.
  intros Hq Ht Hprev Hlen.
  destruct (gameLoop_cases width height segments s)
    as [(Hp & _) | (_ & applied & next & finished & Hm & ->)]; [congruence|].
  destruct (moveSegments_straight t Ht cells [] ∅ []) as (applied' & Hs).
  cbn [app List.length] in Hs. rewrite Hlen in Hs.
  rewrite Hq, Hprev, Hs in Hm. injection Hm as <- <- <-.
  rewrite Hq, removeUnusedInstructions_cons. reflexivity.
Qed.

Lemma moveSegments_missing its t :
  selectInstruction None its = Some t ->
  forall todo applied next,
  exists applied',
    moveSegments width height its None todo applied next
    = (applied',
       next ++ replicate (List.length todo)
                 (toId (nextCoords width height (idir t, None))),
       true).
Proof.
  intros Hsel. induction todo as [|i todo IH]; intros applied next.
  - exists applied. cbn. now rewrite app_nil_r.
  - cbn [moveSegments toCoord]. rewrite Hsel.
    destruct (IH ({[iref t]} ∪ applied)
                (next ++ [toId (nextCoords width height (idir t, None))]))
      as (applied' & ->).
    exists applied'. cbn [List.length replicate]. now rewrite <- app_assoc.
Qed.
End Straight.

(** X15.  With a single instruction in the queue (and its cell present), a
    tick over a shown body of [segments] cells moves every cell one step in
    that instruction's direction, keeping the order, and leaves the queue as
    it is. *)
Theorem gameLoop_single_instruction
    (width height : Z) (segments : nat) (s : State) (t : Instruction)
    (cells : list Coord) :
  instructions s = [t] -> anchored t ->
  prevSquares s = Some (List.map toId cells) ->
  List.length cells = segments ->
  exists s',
    gameLoop width height segments s = Normal s' /\
    nextSquares s'
    = Some (List.map toId
              (List.map (fun c => nextCoords width height (idir t, Some c)) cells)) /\
    instructions s' = [t].
Proof.
  intros Hq Ht Hprev Hlen.
  rewrite (gameLoop_straight width height segments t cells s Hq Ht Hprev Hlen).
  eexists. split; [reflexivity|].
  rewrite (proj1 (proj2 (rescheduleGameLoop_squares _))).
  rewrite rescheduleGameLoop_instructions. split; reflexivity.
Qed.

Lemma gameLoop_single_instruction_witness :
  exists s',
    gameLoop 100 100 2
      (MkState true None None [MkInstruction 0 Up (Some (50, 50))]
         (Some ["50,83"; "50,72"]%string) None 1 [] 0 [] 0) = Normal s' /\
    nextSquares s' = Some ["50,0"; "50,83"]%string.
Proof.
  destruct (gameLoop_single_instruction 100 100 2
              (MkState true None None [MkInstruction 0 Up (Some (50, 50))]
                 (Some ["50,83"; "50,72"]%string) None 1 [] 0 [] 0)
              (MkInstruction 0 Up (Some (50, 50))) [(50, 83); (50, 72)])
    as (s' & Hrun & Hnext & _).
  - reflexivity.
  - eexists. reflexivity.
  - reflexivity.
  - reflexivity.
  - exists s'. split; [exact Hrun | rewrite Hnext; reflexivity].
Defined.

(** X16.  A tick that arrives while a body is pending but none is shown yet
    (no frame ran since the initial body was made) finds every segment
    missing: if the selection for a missing segment yields [t], all
    [segments] keys of the new pending body are one and the same, the key of
    the cell one step in [t]'s direction from the initial head. *)
Theorem gameLoop_before_first_frame
    (width height : Z) (segments : nat) (s : State) (pending : list ID)
    (t : Instruction) :
  prevSquares s = None -> nextSquares s = Some pending ->
  selectInstruction None (instructions s) = Some t ->
  exists s',
    gameLoop width height segments s = Normal s' /\
    nextSquares s'
    = Some (replicate segments (toId (nextCoords width height (idir t, None)))).
Proof.
  intros Hprev Hnext Hsel.
  destruct (gameLoop_cases width height segments s)
    as [(_ & Hn & _) | (_ & applied & next & finished & Hm & ->)]; [congruence|].
  destruct (moveSegments_missing width height (instructions s) t Hsel
              (seq 0 segments) ∅ []) as (applied' & Hs).
  rewrite Hprev, Hs in Hm. injection Hm as <- <- <-.
  eexists. split; [reflexivity|].
  rewrite (proj1 (proj2 (rescheduleGameLoop_squares _))).
  cbn. now rewrite length_seq.
Qed.

Lemma gameLoop_before_first_frame_witness :
  option_map nextSquares
    (run 100 100 3 [KeyDown "Enter"; TimeoutFires 0] (initial 100 100))
  = Some (Some ["61,50"; "61,50"; "61,50"]%string).
Proof.
  destruct (gameLoop_before_first_frame 100 100 3
              (fire_timeout 0 (store (handleKeyEvents 100 100 3 "Enter"
                                        (initial 100 100))))
              _ (firstInstruction 100 100) eq_refl eq_refl eq_refl)
    as (s' & Hrun & Hnext).
  cbn [run dispatch]. cbn [existsb timeouts store handleKeyEvents].
  change (existsb (Nat.eqb 0)
            (timeouts (store (handleKeyEvents 100 100 3 "Enter" (initial 100 100)))))
    with true.
  cbv iota. rewrite Hrun. cbn [store option_map]. rewrite Hnext. reflexivity.
Defined.

(** ** Cruising *)

Lemma run_app width height segments es1 es2 s :
  run width height segments (es1 ++ es2) s
  = match run width height segments es1 s with
    | Some s' => run width height segments es2 s'
    | None => None
    end.
Proof.
  revert s. induction es1 as [|e es1 IH]; intros s; [reflexivity|].
  cbn [app run]. destruct (dispatch width height segments e s); [apply IH | reflexivity].
Qed.

Lemma rounds_S k :
  rounds (S k) = rounds k ++ [TimeoutFires k; FrameFires (S k)].
Proof.
  unfold rounds. rewrite seq_S, flat_map_app. cbn. reflexivity.
Qed.

Lemma remove_id_only id : remove_id id [id] = [].
Proof. cbn. now rewrite Nat.eqb_refl. Qed.

Section Cruise.
Variables width height : Z.
Variable segments : nat.
Hypothesis some_segments : (1 <= segments)%nat.

Lemma cruise_start :
  run width height segments [KeyDown "Enter"; FrameFires 0] (initial width height)
  = Some (cruising width height segments 0).
Proof.
  unfold cruising.
  replace (List.map (Nat.iter 0 (step width height Right))
             (initialBody width height segments))
    with (initialBody width height segments)
    by (symmetry; apply List.map_id).
  reflexivity.
Qed.

Lemma cruise_round k :
  run width height segments [TimeoutFires k; FrameFires (S k)]
    (cruising width height segments k)
  = Some (cruising width height segments (S k)).
Proof.
  assert (Hmap :
    List.map (Nat.iter (S k) (step width height Right))
      (initialBody width height segments)
    = List.map (step width height (idir (firstInstruction width height)))
        (List.map (Nat.iter k (step width height Right))
           (initialBody width height segments)))
    by (rewrite List.map_map; reflexivity).
  unfold cruising at 2. rewrite Hmap. clear Hmap.
  cbn [run dispatch].
  change (timeouts (cruising width height segments k)) with [k].
  cbn [existsb]. rewrite Nat.eqb_refl. cbn [orb].
  rewrite (gameLoop_straight width height segments (firstInstruction width height)
             (List.map (Nat.iter k (step width height Right))
                (initialBody width height segments)));
    [ | reflexivity | eexists; reflexivity | reflexivity
      | rewrite length_map, initialBody_length; lia ].
  cbv beta iota delta
    [cruising rescheduleGameLoop fire_timeout fire_frame set_instructions
     set_nextSquares set_prevSquares setTimeout_gameLoop
     requestAnimationFrame_draw draw remove_id cancel store existsb
     List.filter app playing animationId gameLoopId instructions prevSquares
     nextSquares nextRef timeouts nextTimeoutId frames nextFrameId].
  rewrite !Nat.eqb_refl. cbn [negb orb]. reflexivity.
Qed.
End Cruise.

(** X17.  With at least one segment and no turn issued: after Enter, the
    first frame and [k] rounds of one tick and one frame, the shown body is
    the initial body with every cell moved [k] steps to the right (with
    wrap); the queue still holds the initial instruction only, and exactly
    one tick and one frame are pending. *)
Theorem cruise (width height : Z) (segments k : nat) :
  (1 <= segments)%nat ->
  run width height segments
    (KeyDown "Enter" :: FrameFires 0 :: rounds k) (initial width height)
  = Some (cruising width height segments k).
Proof.
  intros Hn. induction k as [|k IH].
  - now apply cruise_start.
  - rewrite rounds_S.
    change (KeyDown "Enter" :: FrameFires 0 ::
              rounds k ++ [TimeoutFires k; FrameFires (S k)])
      with ((KeyDown "Enter" :: FrameFires 0 :: rounds k)
              ++ [TimeoutFires k; FrameFires (S k)]).
    rewrite run_app, IH. now apply cruise_round.
Qed.

Lemma cruise_witness :
  option_map prevSquares
    (run 100 100 3 (KeyDown "Enter" :: FrameFires 0 :: rounds 5) (initial 100 100))
  = Some (Some ["11,50"; "0,50"; "83,50"]%string).
Proof.
  rewrite (cruise 100 100 3 5) by lia. vm_compute. reflexivity.
Defined.

(** ** Keys *)

Lemma arrow_None key :
  arrow key = None ->
  String.eqb key "ArrowUp" = false /\ String.eqb key "ArrowRight" = false /\
  String.eqb key "ArrowDown" = false /\ String.eqb key "ArrowLeft" = false.
Proof.
  unfold arrow.
  destruct (String.eqb key "ArrowUp"); [discriminate|].
  destruct (String.eqb key "ArrowRight"); [discriminate|].
  destruct (String.eqb key "ArrowDown"); [discriminate|].
  destruct (String.eqb key "ArrowLeft"); [discriminate|]. auto.
Qed.

(** X18.  A key that is none of the four arrows nor Escape, and that is not
    Enter pressed while stopped, changes nothing in the store; in
    particular Enter does nothing while the game is running. *)
Theorem handleKeyEvents_ignores
    (width height : Z) (segments : nat) (key : string) (s : State) :
  arrow key = None -> key <> "Escape"%string ->
  key <> "Enter"%string \/ playing s = true ->
  handleKeyEvents width height segments key s = Normal s.
Proof.
  intros Harrow Hesc Henter. unfold handleKeyEvents.
  assert (Hfirst : String.eqb key "Enter" && negb (playing s) = false).
  { destruct Henter as [Hne | ->]; [|apply andb_false_r].
    apply String.eqb_neq in Hne. now rewrite Hne. }
  rewrite Hfirst.
  destruct (arrow_None key Harrow) as (-> & -> & -> & ->).
  apply String.eqb_neq in Hesc. rewrite Hesc. reflexivity.
Qed.

Lemma handleKeyEvents_ignores_witness :
  let s := store (handleKeyEvents 100 100 5 "Enter" (initial 100 100)) in
  handleKeyEvents 100 100 5 "Enter" s = Normal s.
Proof.
  cbv zeta. apply handleKeyEvents_ignores;
    [reflexivity | discriminate | right; reflexivity].
Defined.

(** X19.  An arrow key appends one instruction with the key's direction and
    changes nothing else.  Its cell is decoded from the first key of the
    array [nextSquares || prevSquares]: the pending body whenever
    [nextSquares] is not null, even when that array is empty, and the shown
    body otherwise.  If that array starts with the key of a cell [c], the
    instruction is anchored at [c]; if that array is empty or there is none,
    the instruction has no cell, although a body may be shown. *)
Theorem turn_is_anchored_at_head
    (width height : Z) (segments : nat) (s : State) (key : string)
    (d : Direction) :
  arrow key = Some d ->
  let squares := match nextSquares s with
                 | Some next => Some next
                 | None => prevSquares s
                 end in
  handleKeyEvents width height segments key s
  = Normal (push_instruction d
              (toCoord (match squares with
                        | Some sq => sq !! 0%nat
                        | None => None
                        end)) s) /\
  (forall c rest, squares = Some (toId c :: rest) ->
     handleKeyEvents width height segments key s
     = Normal (push_instruction d (Some c) s)) /\
  (squares = Some [] \/ squares = None ->
     handleKeyEvents width height segments key s
     = Normal (push_instruction d None s)).
Proof.
  intros Harrow squares.
  assert (Hgen :
    handleKeyEvents width height segments key s
    = Normal (push_instruction d
                (toCoord (match squares with
                          | Some sq => sq !! 0%nat
                          | None => None
                          end)) s)).
  { subst squares. revert Harrow. unfold arrow.
    destruct (String.eqb_spec key "ArrowUp") as [->|_];
      [|destruct (String.eqb_spec key "ArrowRight") as [->|_];
        [|destruct (String.eqb_spec key "ArrowDown") as [->|_];
          [|destruct (String.eqb_spec key "ArrowLeft") as [->|_]]]];
      intros [= <-]; reflexivity. }
  split; [exact Hgen|]. split.
  - intros c rest Hsq. rewrite Hgen, Hsq. cbn [lookup list_lookup].
    now rewrite toCoord_toId.
  - intros [Hsq|Hsq]; rewrite Hgen, Hsq; reflexivity.
Qed.

Lemma turn_is_anchored_at_head_witness :
  exists s,
    run 100 100 5
      [KeyDown "ArrowUp"; KeyDown "ArrowLeft"; KeyDown "Enter"; FrameFires 0;
       TimeoutFires 0; FrameFires 1; TimeoutFires 1] (initial 100 100)
    = Some s /\
    nextSquares s = Some [] /\
    prevSquares s = Some ["61,50"; "50,50"; "39,50"; "28,50"; "17,50"]%string /\
    handleKeyEvents 100 100 5 "ArrowDown" s
    = Normal (push_instruction Down None s).
Proof.
  eexists. split; [vm_compute; reflexivity|].
  split; [reflexivity|]. split; [reflexivity|].
  eapply (turn_is_anchored_at_head 100 100 5); [reflexivity|].
  left. reflexivity.
Defined.

(** ** Starting and stopping *)

Section Loops.
Variables width height : Z.
Variable segments : nat.

Lemma gameLoop_running s s' :
  playing s = true -> gameLoop width height segments s = Normal s' ->
  playing s' = true /\
  timeouts s' = timeouts s ++ [nextTimeoutId s] /\ frames s' = frames s.
Proof.
  intros Hplay Hrun.
  destruct (gameLoop_cases width height segments s)
    as [(Hp & Hn & Hg) | (Hbody & applied & next & finished & Hm & Hg)];
    rewrite Hg in Hrun; [|destruct finished; [|discriminate]];
    injection Hrun as <-; unfold rescheduleGameLoop;
    cbn [set_instructions set_nextSquares playing]; rewrite Hplay;
    cbn; auto.
Qed.

Lemma length_cancel id pending :
  (List.length (cancel id pending) <= List.length pending)%nat.
Proof.
  destruct id as [i|]; cbn [cancel]; [apply List.filter_length_le | lia].
Qed.

Lemma length_remove_id id pending :
  existsb (Nat.eqb id) pending = true ->
  (List.length (remove_id id pending) < List.length pending)%nat.
Proof.
  unfold remove_id, cancel.
  induction pending as [|j pending IH]; cbn [existsb List.filter]; [discriminate|].
  destruct (Nat.eqb_spec id j) as [->|Hne]; cbn [orb].
  - intros _. rewrite Nat.eqb_refl. cbn [negb List.length].
    pose proof (List.filter_length_le (fun j0 => negb (j0 =? j)%nat) pending).
    lia.
  - intros Hin. apply IH in Hin.
    destruct (negb (j =? id)%nat); cbn [List.length]; lia.
Qed.

Lemma gameLoop_stopped s :
  playing s = false ->
  let s' := store (gameLoop width height segments s) in
  playing s' = false /\
  (List.length (timeouts s') <= List.length (timeouts s))%nat /\
  frames s' = frames s.
Proof.
  intros Hplay. cbv zeta.
  destruct (gameLoop_cases width height segments s)
    as [(Hp & Hn & Hg) | (Hbody & applied & next & finished & Hm & Hg)];
    rewrite Hg; [|destruct finished]; cbn [store];
    unfold rescheduleGameLoop;
    cbn [set_instructions set_nextSquares playing]; rewrite ?Hplay;
    cbn; repeat split; auto using length_cancel.
Qed.
End Loops.

(** X20.  Enter pressed while stopped, when the tick it runs completes, sets
    [playing], and registers one new frame and one new tick on top of
    whatever is still pending: nothing pending is cancelled, so a tick left
    over from before a stop keeps its own loop going beside the new one. *)
Theorem enter_adds_callbacks
    (width height : Z) (segments : nat) (s s' : State) :
  playing s = false ->
  handleKeyEvents width height segments "Enter" s = Normal s' ->
  playing s' = true /\
  timeouts s' = timeouts s ++ [nextTimeoutId s] /\
  frames s' = frames s ++ [nextFrameId s].
Proof.
  intros Hplay. unfold handleKeyEvents.
  cbn [String.eqb Ascii.eqb Bool.eqb andb]. rewrite Hplay. cbn [negb].
  intros Hrun.
  apply gameLoop_running in Hrun.
  - destruct Hrun as (Hp & Ht & Hf). split; [exact Hp|].
    rewrite Ht, Hf. unfold draw.
    destruct (nextSquares (set_playing true s)); cbn; auto.
  - unfold draw. destruct (nextSquares (set_playing true s)); reflexivity.
Qed.

Lemma enter_adds_callbacks_witness :
  option_map timeouts
    (run 100 100 5
       [KeyDown "Enter"; FrameFires 0; KeyDown "Escape"; KeyDown "Enter"]
       (initial 100 100))
  = Some [0%nat; 1%nat].
Proof.
  set (s := store (handleKeyEvents 100 100 5 "Escape"
             (draw (fire_frame 0
                (store (handleKeyEvents 100 100 5 "Enter" (initial 100 100))))))).
  destruct (enter_adds_callbacks 100 100 5 s
              (store (handleKeyEvents 100 100 5 "Enter" s)) eq_refl eq_refl)
    as (_ & Ht & _).
  change (run 100 100 5
            [KeyDown "Enter"; FrameFires 0; KeyDown "Escape"; KeyDown "Enter"]
            (initial 100 100))
    with (Some (store (handleKeyEvents 100 100 5 "Enter" s))).
  cbn [option_map]. rewrite Ht. reflexivity.
Defined.

(** X21.  While stopped, a callback that fires is not registered again: a
    tick leaves fewer ticks pending than before and the frames as they are,
    a frame leaves fewer frames pending and the ticks as they are, and
    neither sets [playing].  So after a stop each pending callback runs at
    most once more. *)
Theorem stopped_callbacks_run_out
    (width height : Z) (segments : nat) (s : State) (id : nat) (c : Completion) :
  playing s = false ->
  (dispatch width height segments (TimeoutFires id) s = Some c ->
   playing (store c) = false /\
   (List.length (timeouts (store c)) < List.length (timeouts s))%nat /\
   frames (store c) = frames s) /\
  (dispatch width height segments (FrameFires id) s = Some c ->
   playing (store c) = false /\
   (List.length (frames (store c)) < List.length (frames s))%nat /\
   timeouts (store c) = timeouts s).
Proof.
  intros Hplay. split; cbn [dispatch].
  - destruct (existsb (Nat.eqb id) (timeouts s)) eqn:Hin; [|discriminate].
    intros [= <-].
    destruct (gameLoop_stopped width height segments (fire_timeout id s) Hplay)
      as (Hp & Hlen & Hf).
    split; [exact Hp|]. split; [|exact Hf].
    apply length_remove_id in Hin. cbn [fire_timeout timeouts] in Hlen. lia.
  - destruct (existsb (Nat.eqb id) (frames s)) eqn:Hin; [|discriminate].
    intros [= <-]. cbn [store]. apply length_remove_id in Hin.
    unfold draw.
    destruct (nextSquares (fire_frame id s));
      cbn [playing set_nextSquares set_prevSquares fire_frame];
      rewrite Hplay;
      cbn [playing frames timeouts animationId cancelAnimationFrame_animationId
           set_nextSquares set_prevSquares fire_frame];
      (split; [exact Hplay|]); (split; [|reflexivity]);
      pose proof (length_cancel (animationId s) (remove_id id (frames s))); lia.
Qed.

Lemma stopped_callbacks_run_out_witness :
  let s := store (handleKeyEvents 100 100 5 "Escape"
             (store (handleKeyEvents 100 100 5 "Enter" (initial 100 100)))) in
  timeouts s = [0%nat] /\
  timeouts (store (gameLoop 100 100 5 (fire_timeout 0 s))) = [].
Proof.
  cbv zeta. split; [reflexivity|].
  set (s := store (handleKeyEvents 100 100 5 "Escape"
              (store (handleKeyEvents 100 100 5 "Enter" (initial 100 100))))).
  destruct (stopped_callbacks_run_out 100 100 5 s 0
              (gameLoop 100 100 5 (fire_timeout 0 s)) eq_refl) as [Htick _].
  destruct (Htick eq_refl) as (_ & Hlen & _).
  destruct (timeouts (store (gameLoop 100 100 5 (fire_timeout 0 s))))
    as [|x l]; [reflexivity|].
  change (List.length (timeouts s)) with 1%nat in Hlen.
  cbn [List.length] in Hlen. lia.
Defined.
